(** * FX options risk aggregator: validation, pricing and aggregation

    A shallow embedding of [models.py], [services/validator.py],
    [services/pricing_engine.py] and [services/aggregator.py].

    Conventions of the embedding.
    - A Python [float] is a real number of [R]: rounding, overflow,
      underflow, NaN and the infinities of binary64 are outside the model.
    - A Python [str] is a [string] of 8-bit characters; [str.upper] acts on
      the ASCII letters.
    - A raised exception is the left summand of a [result]; a [for] loop is
      a left fold over the list it iterates.
    - Text produced by library formatting (the [repr] of a float, the
      [.2%] format, the [str] of a pydantic [ValidationError]) is taken as
      a parameter of the validator. *)

From Stdlib Require Import Reals Lra List String Ascii Arith Bool Lia.
From Stdlib Require Import DecimalString.
Import ListNotations.

Open Scope string_scope.
Open Scope R_scope.

(** ** Python strings *)

Module PyStr.

Definition is_lower (c : ascii) : bool :=
  (97 <=? nat_of_ascii c)%nat && (nat_of_ascii c <=? 122)%nat.

Definition is_upper (c : ascii) : bool :=
  (65 <=? nat_of_ascii c)%nat && (nat_of_ascii c <=? 90)%nat.

Definition upper_ascii (c : ascii) : ascii :=
  if is_lower c then ascii_of_nat (nat_of_ascii c - 32) else c.

Definition lower_ascii (c : ascii) : ascii :=
  if is_upper c then ascii_of_nat (nat_of_ascii c + 32) else c.

(** [s.upper()] *)
Fixpoint upper (s : string) : string :=
  match s with
  | EmptyString => EmptyString
  | String c s' => String (upper_ascii c) (upper s')
  end.

(** [s.replace(c, "")] for a one-character [c] *)
Fixpoint remove_char (c : ascii) (s : string) : string :=
  match s with
  | EmptyString => EmptyString
  | String d s' =>
      if Ascii.eqb d c then remove_char c s' else String d (remove_char c s')
  end.

(** [sep.join(l)] *)
Fixpoint join (sep : string) (l : list string) : string :=
  match l with
  | [] => EmptyString
  | [x] => x
  | x :: l' => x ++ sep ++ join sep l'
  end.

(** [repr] of a string without quotes or escapes in it *)
Definition repr_str (s : string) : string := "'" ++ s ++ "'".

(** [str] of a list of such strings: ['A', 'B'] *)
Definition str_list (l : list string) : string :=
  "[" ++ join ", " (map repr_str l) ++ "]".

(** [s] is [base] with each letter in either case. *)
Fixpoint casing_of (base s : string) : Prop :=
  match base, s with
  | EmptyString, EmptyString => True
  | String b base', String c s' =>
      (c = lower_ascii b \/ c = upper_ascii b) /\ casing_of base' s'
  | _, _ => False
  end.

End PyStr.

(** ** Exceptions *)

Inductive exn : Type :=
| ValueError (msg : string)
| ZeroDivisionError (msg : string).

(** [str(e)] *)
Definition str_exn (e : exn) : string :=
  match e with
  | ValueError msg => msg
  | ZeroDivisionError msg => msg
  end.

Definition result (A : Type) : Type := (exn + A)%type.

Definition ret {A : Type} (a : A) : result A := inr a.
Definition raise {A : Type} (e : exn) : result A := inl e.
Definition bind {A B : Type} (m : result A) (k : A -> result B) : result B :=
  match m with
  | inl e => inl e
  | inr a => k a
  end.

Notation "x <- m ;; k" := (bind m (fun x => k))
  (at level 61, m at next level, right associativity).

(** ** models.py *)

Inductive OptionType : Type := CALL | PUT.

Definition OptionType_value (o : OptionType) : string :=
  match o with
  | CALL => "CALL"
  | PUT => "PUT"
  end.

Definition OptionType_members : list OptionType := [CALL; PUT].

Inductive CurrencyPair : Type :=
| EURUSD | GBPUSD | USDJPY | AUDUSD | USDCAD | USDCHF.

Definition CurrencyPair_value (p : CurrencyPair) : string :=
  match p with
  | EURUSD => "EURUSD"
  | GBPUSD => "GBPUSD"
  | USDJPY => "USDJPY"
  | AUDUSD => "AUDUSD"
  | USDCAD => "USDCAD"
  | USDCHF => "USDCHF"
  end.

Definition CurrencyPair_members : list CurrencyPair :=
  [EURUSD; GBPUSD; USDJPY; AUDUSD; USDCAD; USDCHF].

(** [Enum(value)]: the member with that value, [None] for the
    [ValueError] of a value that no member has. *)
Definition enum_of_value {E : Type} (value : E -> string) (members : list E)
    (s : string) : option E :=
  find (fun m => String.eqb (value m) s) members.

Definition OptionType_of_value : string -> option OptionType :=
  enum_of_value OptionType_value OptionType_members.

Definition CurrencyPair_of_value : string -> option CurrencyPair :=
  enum_of_value CurrencyPair_value CurrencyPair_members.

(** [RawTrade], as stored after construction. The field [OptionType] of
    the source is [RawOptionType] here, the name being taken by the enum. *)
Record RawTrade : Type := mkRawTrade {
  TradeID : string;
  Underlying : string;
  Notional : R;
  NotionalCurrency : string;
  Spot : R;
  Strike : R;
  Vol : R;
  RateDomestic : R;
  RateForeign : R;
  Expiry : R;
  RawOptionType : string
}.

Record ValidatedTrade : Type := mkValidatedTrade {
  trade_id : string;
  currency_pair : CurrencyPair;
  option_type : OptionType;
  strike : R;
  notional : R;
  notional_currency : string;
  time_to_expiry : R;
  spot : R;
  volatility : R;
  domestic_rate : R;
  foreign_rate : R
}.

Module PricedTrade.
Record t : Type := mk {
  trade_id : string;
  currency_pair : string;
  option_type : string;
  strike : R;
  notional : R;
  notional_currency : string;
  spot : R;
  time_to_expiry : R;
  volatility : R;
  pv : R;
  delta : R;
  vega : R
}.
End PricedTrade.
Definition PricedTrade : Type := PricedTrade.t.

(** A [datetime.date], as its proleptic ordinal. *)
Definition date : Type := nat.

Record PortfolioSummary : Type := mkPortfolioSummary {
  total_trades : nat;
  total_pv : R;
  total_delta : R;
  total_vega : R;
  valuation_date : date;
  reporting_currency : string
}.

Record ValidationResult : Type := mkValidationResult {
  valid_trades : list ValidatedTrade;
  errors : list string
}.

Definition is_valid (r : ValidationResult) : bool :=
  Nat.eqb (List.length (errors r)) 0.

(** *** Field constraints of [ValidatedTrade] *)

Inductive constraint_kind : Type :=
| greater_than | greater_than_equal | less_than_equal.

(** One line of a pydantic [ValidationError]: the field, the constraint it
    breaks, its limit and the offending input. *)
Record field_error : Type := mkFieldError {
  loc : string;
  kind : constraint_kind;
  limit : R;
  input : R
}.

Inductive validation_error : Type :=
| FieldErrors (errs : list field_error)
| ModelValueError (msg : string).

Definition check_gt (name : string) (b x : R) : list field_error :=
  if Rlt_dec b x then [] else [mkFieldError name greater_than b x].

Definition check_ge (name : string) (b x : R) : list field_error :=
  if Rle_dec b x then [] else [mkFieldError name greater_than_equal b x].

Definition check_le (name : string) (b x : R) : list field_error :=
  if Rle_dec x b then [] else [mkFieldError name less_than_equal b x].

(** The [Field(...)] bounds, in declaration order. *)
Definition field_errors (v : ValidatedTrade) : list field_error :=
  check_gt "strike" 0 (strike v) ++
  check_gt "notional" 0 (notional v) ++
  (check_gt "time_to_expiry" 0 (time_to_expiry v) ++
   check_le "time_to_expiry" 10 (time_to_expiry v)) ++
  check_gt "spot" 0 (spot v) ++
  (check_gt "volatility" 0 (volatility v) ++
   check_le "volatility" 5 (volatility v)) ++
  (check_ge "domestic_rate" (-0.1) (domestic_rate v) ++
   check_le "domestic_rate" 1 (domestic_rate v)) ++
  (check_ge "foreign_rate" (-0.1) (foreign_rate v) ++
   check_le "foreign_rate" 1 (foreign_rate v)).

Definition is_nil {A : Type} (l : list A) : bool :=
  match l with
  | [] => true
  | _ :: _ => false
  end.

Section Formatting.

(** [repr] of a float, as an f-string places it. *)
Variable float_str : R -> string.
(** A float under the format [.2%]. *)
Variable percent_str : R -> string.
(** [str] of a pydantic [ValidationError]. *)
Variable pydantic_str : validation_error -> string.

(** [ValidatedTrade.validate_business_rules], the [mode='after'] model
    validator: the message of its [ValueError], or the trade. *)
Definition validate_business_rules (self : ValidatedTrade)
    : string + ValidatedTrade :=
  if Rlt_dec 1 (volatility self) then
    inl ("Volatility " ++ percent_str (volatility self)
         ++ " seems unreasonably high")
  else if negb (existsb (String.eqb (notional_currency self)) ["USD"; "JPY"])
  then
    inl ("NotionalCurrency must be USD or JPY, got " ++ notional_currency self)
  else inr self.

(** [ValidatedTrade(...)]: the field constraints, then (only when all of
    them hold) the model validator. *)
Definition ValidatedTrade_init (v : ValidatedTrade)
    : validation_error + ValidatedTrade :=
  if is_nil (field_errors v) then
    match validate_business_rules v with
    | inl msg => inl (ModelValueError msg)
    | inr v' => inr v'
    end
  else inl (FieldErrors (field_errors v)).

(** ** services/validator.py *)

(** Lines 55-63 of [_validate_single_trade]. *)
Definition parse_option_type (raw : string) : result OptionType :=
  let option_type_str := PyStr.upper raw in
  match OptionType_of_value option_type_str with
  | Some o => ret o
  | None =>
      raise (ValueError
        ("Invalid OptionType '" ++ raw ++ "'. "
         ++ "Must be one of: "
         ++ PyStr.str_list (map OptionType_value OptionType_members)))
  end.

(** Lines 65-73. *)
Definition parse_currency_pair (raw : string) : result CurrencyPair :=
  let currency_pair_normalized :=
    PyStr.upper (PyStr.remove_char " " (PyStr.remove_char "/" raw)) in
  match CurrencyPair_of_value currency_pair_normalized with
  | Some p => ret p
  | None =>
      raise (ValueError
        ("Invalid Underlying '" ++ raw ++ "'. "
         ++ "Must be one of: EUR/USD, GBP/USD, or USD/JPY"))
  end.

Definition _validate_single_trade (raw_trade : RawTrade)
    : result ValidatedTrade :=
  option_type <- parse_option_type (RawOptionType raw_trade) ;;
  currency_pair <- parse_currency_pair (Underlying raw_trade) ;;
  if Rle_dec (Expiry raw_trade) 0 then
    raise (ValueError
      ("Expiry must be positive, got " ++ float_str (Expiry raw_trade)))
  else
    match
      ValidatedTrade_init
        {| trade_id := TradeID raw_trade;
           currency_pair := currency_pair;
           option_type := option_type;
           strike := Strike raw_trade;
           notional := Notional raw_trade;
           notional_currency := NotionalCurrency raw_trade;
           time_to_expiry := Expiry raw_trade;
           spot := Spot raw_trade;
           volatility := Vol raw_trade;
           domestic_rate := RateDomestic raw_trade;
           foreign_rate := RateForeign raw_trade |}
    with
    | inr validated_trade => ret validated_trade
    | inl e => raise (ValueError ("Validation error: " ++ pydantic_str e))
    end.

(** One turn of the loop of [validate_trades] on the two lists it
    appends to. *)
Definition validate_step (acc : list ValidatedTrade * list string)
    (raw_trade : RawTrade) : list ValidatedTrade * list string :=
  match _validate_single_trade raw_trade with
  | inr validated_trade => ((fst acc ++ [validated_trade])%list, snd acc)
  | inl e =>
      let error_msg := "Trade " ++ TradeID raw_trade ++ ": " ++ str_exn e in
      (fst acc, (snd acc ++ [error_msg])%list)
  end.

Definition validate_trades (raw_trades : list RawTrade) : ValidationResult :=
  let acc := fold_left validate_step raw_trades ([], []) in
  {| valid_trades := fst acc; errors := snd acc |}.

End Formatting.

(** ** Integrals

    [integral_0 g x] is the Riemann integral of a continuous [g] from [0]
    to [x]. *)

Module Calculus.

Lemma continuous_integrable (g : R -> R) (a b : R) :
  continuity g -> Riemann_integrable g a b.
Proof.
  intro Hc. destruct (Rle_dec a b) as [Hab | Hab].
  - apply continuity_implies_RiemannInt; [exact Hab |].
    intros x _. apply Hc.
  - apply RiemannInt_P1, continuity_implies_RiemannInt; [lra |].
    intros x _. apply Hc.
Qed.

Definition integral_0 (g : R -> R) (Hc : continuity g) (x : R) : R :=
  RiemannInt (continuous_integrable g 0 x Hc).

End Calculus.

(** ** scipy.stats.norm

    The standard normal distribution, as the mathematical functions that
    [norm.pdf] and [norm.cdf] compute: the density
    [exp(-x**2/2) / sqrt(2*pi)] and its integral from minus infinity,
    which is one half plus the integral from [0] to [x]. *)

Module norm.

(** The density without its constant. *)
Definition kernel (t : R) : R := exp (- t ^ 2 / 2).

Lemma kernel_continuity : continuity kernel.
Proof. apply derivable_continuous. unfold kernel. reg. Qed.

(** The integral of the kernel from [0] to [x]. *)
Definition mass (x : R) : R :=
  Calculus.integral_0 kernel kernel_continuity x.

Definition pdf (x : R) : R := exp (- x ^ 2 / 2) / sqrt (2 * PI).

Definition cdf (x : R) : R := 1 / 2 + mass x / sqrt (2 * PI).

End norm.

(** ** services/pricing_engine.py

    The engine prices instances of [ValidatedTrade], whose [strike] is
    positive by construction: the quotient [S / K] never raises. *)

Definition _calculate_d1_d2 (trade : ValidatedTrade) : R * R :=
  let S := spot trade in
  let K := strike trade in
  let T := time_to_expiry trade in
  let r_d := domestic_rate trade in
  let r_f := foreign_rate trade in
  let sigma := volatility trade in
  let d1 :=
    (ln (S / K) + (r_d - r_f + 0.5 * sigma ^ 2) * T) / (sigma * sqrt T) in
  let d2 := d1 - sigma * sqrt T in
  (d1, d2).

Definition _calculate_pv (trade : ValidatedTrade) : R :=
  let S := spot trade in
  let K := strike trade in
  let T := time_to_expiry trade in
  let r_d := domestic_rate trade in
  let r_f := foreign_rate trade in
  let N := notional trade in
  let '(d1, d2) := _calculate_d1_d2 trade in
  let df_domestic := exp (- r_d * T) in
  let df_foreign := exp (- r_f * T) in
  let pv_per_unit :=
    match option_type trade with
    | CALL => S * df_foreign * norm.cdf d1 - K * df_domestic * norm.cdf d2
    | PUT =>
        K * df_domestic * norm.cdf (- d2) - S * df_foreign * norm.cdf (- d1)
    end in
  let pv := pv_per_unit * N in
  pv.

Definition _calculate_delta (trade : ValidatedTrade) : R :=
  let T := time_to_expiry trade in
  let r_f := foreign_rate trade in
  let N := notional trade in
  let '(d1, _) := _calculate_d1_d2 trade in
  let df_foreign := exp (- r_f * T) in
  let delta_per_unit :=
    match option_type trade with
    | CALL => df_foreign * norm.cdf d1
    | PUT => df_foreign * (norm.cdf d1 - 1)
    end in
  let delta := delta_per_unit * N in
  delta.

Definition _calculate_vega (trade : ValidatedTrade) : R :=
  let S := spot trade in
  let T := time_to_expiry trade in
  let r_f := foreign_rate trade in
  let N := notional trade in
  let '(d1, _) := _calculate_d1_d2 trade in
  let df_foreign := exp (- r_f * T) in
  let vega_per_unit := S * df_foreign * norm.pdf d1 * sqrt T in
  let vega := vega_per_unit * N / 100 in
  vega.

(** The body of the loop of [price_portfolio]. *)
Definition price_step (priced_trades : list PricedTrade)
    (trade : ValidatedTrade) : list PricedTrade :=
  let pv := _calculate_pv trade in
  let delta := _calculate_delta trade in
  let vega := _calculate_vega trade in
  let priced_trade :=
    {| PricedTrade.trade_id := trade_id trade;
       PricedTrade.currency_pair := CurrencyPair_value (currency_pair trade);
       PricedTrade.option_type := OptionType_value (option_type trade);
       PricedTrade.strike := strike trade;
       PricedTrade.notional := notional trade;
       PricedTrade.notional_currency := notional_currency trade;
       PricedTrade.spot := spot trade;
       PricedTrade.time_to_expiry := time_to_expiry trade;
       PricedTrade.volatility := volatility trade;
       PricedTrade.pv := pv;
       PricedTrade.delta := delta;
       PricedTrade.vega := vega |} in
  (priced_trades ++ [priced_trade])%list.

Definition price_portfolio (trades : list ValidatedTrade)
    : list PricedTrade :=
  fold_left price_step trades [].

(** *** The fields of the two models, by name

    What [model_dump()] gives: every declared field with its value. A
    member of a [str] enum is the string that is its value. *)

Inductive value : Type :=
| VStr (s : string)
| VFloat (x : R).

Definition ValidatedTrade_dump (t : ValidatedTrade) : list (string * value) :=
  [ ("trade_id", VStr (trade_id t));
    ("currency_pair", VStr (CurrencyPair_value (currency_pair t)));
    ("option_type", VStr (OptionType_value (option_type t)));
    ("strike", VFloat (strike t));
    ("notional", VFloat (notional t));
    ("notional_currency", VStr (notional_currency t));
    ("time_to_expiry", VFloat (time_to_expiry t));
    ("spot", VFloat (spot t));
    ("volatility", VFloat (volatility t));
    ("domestic_rate", VFloat (domestic_rate t));
    ("foreign_rate", VFloat (foreign_rate t)) ].

Definition PricedTrade_dump (p : PricedTrade) : list (string * value) :=
  [ ("trade_id", VStr (PricedTrade.trade_id p));
    ("currency_pair", VStr (PricedTrade.currency_pair p));
    ("option_type", VStr (PricedTrade.option_type p));
    ("strike", VFloat (PricedTrade.strike p));
    ("notional", VFloat (PricedTrade.notional p));
    ("notional_currency", VStr (PricedTrade.notional_currency p));
    ("spot", VFloat (PricedTrade.spot p));
    ("time_to_expiry", VFloat (PricedTrade.time_to_expiry p));
    ("volatility", VFloat (PricedTrade.volatility p));
    ("pv", VFloat (PricedTrade.pv p));
    ("delta", VFloat (PricedTrade.delta p));
    ("vega", VFloat (PricedTrade.vega p)) ].

Fixpoint get_field (name : string) (d : list (string * value)) : option value :=
  match d with
  | [] => None
  | (k, v) :: d' => if String.eqb k name then Some v else get_field name d'
  end.

(** *** The model as the specification words it *)

Definition spec_d1 (S K T sigma r_d r_f : R) : R :=
  (ln (S / K) + (r_d - r_f + 0.5 * sigma ^ 2) * T) / (sigma * sqrt T).

Definition spec_d2 (S K T sigma r_d r_f : R) : R :=
  spec_d1 S K T sigma r_d r_f - sigma * sqrt T.

Definition spec_pv_per_unit (o : OptionType) (S K T sigma r_d r_f : R) : R :=
  let d1 := spec_d1 S K T sigma r_d r_f in
  let d2 := spec_d2 S K T sigma r_d r_f in
  match o with
  | CALL => S * exp (- r_f * T) * norm.cdf d1 - K * exp (- r_d * T) * norm.cdf d2
  | PUT =>
      K * exp (- r_d * T) * norm.cdf (- d2) - S * exp (- r_f * T) * norm.cdf (- d1)
  end.

(** ** services/aggregator.py *)

(** [a / b] on floats. *)
Definition float_div (a b : R) : result R :=
  if Req_dec_T b 0 then raise (ZeroDivisionError "float division by zero")
  else ret (a / b).

Definition _to_reporting_currency (amount : R) (trade : PricedTrade)
    (reporting_currency : string) : result R :=
  let trade_ccy := PyStr.upper (PricedTrade.notional_currency trade) in
  let reporting_currency := PyStr.upper reporting_currency in
  let unsupported : result R :=
    raise (ValueError
      ("Unsupported conversion " ++ trade_ccy ++ "->" ++ reporting_currency
       ++ " for " ++ PricedTrade.currency_pair trade)) in
  if String.eqb trade_ccy reporting_currency then ret amount
  else if String.eqb (PricedTrade.currency_pair trade) "USDJPY" then
    if String.eqb trade_ccy "JPY" && String.eqb reporting_currency "USD"
    then float_div amount (PricedTrade.spot trade)
    else if String.eqb trade_ccy "USD" && String.eqb reporting_currency "JPY"
    then ret (amount * PricedTrade.spot trade)
    else unsupported
  else unsupported.

(** The loop of [aggregate_portfolio] on its three running totals. *)
Definition aggregate_step (reporting_currency : string) (totals : R * R * R)
    (trade : PricedTrade) : result (R * R * R) :=
  let '(total_pv, total_delta, total_vega) := totals in
  pv <- _to_reporting_currency (PricedTrade.pv trade) trade
          reporting_currency ;;
  delta <- _to_reporting_currency (PricedTrade.delta trade) trade
             reporting_currency ;;
  vega <- _to_reporting_currency (PricedTrade.vega trade) trade
            reporting_currency ;;
  ret (total_pv + pv, total_delta + delta, total_vega + vega).

Fixpoint for_each {A S : Type} (body : S -> A -> result S) (l : list A)
    (s : S) : result S :=
  match l with
  | [] => ret s
  | x :: l' => s' <- body s x ;; for_each body l' s'
  end.

(** [today] is what [date.today()] returns when the call is made. *)
Definition aggregate_portfolio (today : date) (priced_trades : list PricedTrade)
    (valuation_date : option date) (reporting_currency : string)
    : result PortfolioSummary :=
  let valuation_date :=
    match valuation_date with
    | None => today
    | Some d => d
    end in
  totals <- for_each (aggregate_step reporting_currency) priced_trades
              (0, 0, 0) ;;
  let '(total_pv, total_delta, total_vega) := totals in
  ret {| total_trades := List.length priced_trades;
         total_pv := total_pv;
         total_delta := total_delta;
         total_vega := total_vega;
         valuation_date := valuation_date;
         reporting_currency := reporting_currency |}.

(** ** Notions used in the statements *)

(** A trade that [ValidatedTrade(...)] accepts: the field constraints and
    the two business rules. *)
Definition is_validated (t : ValidatedTrade) : Prop :=
  field_errors t = [] /\
  ~ 1 < volatility t /\
  existsb (String.eqb (notional_currency t)) ["USD"; "JPY"] = true.

Definition with_Vol (r : RawTrade) (vol : R) : RawTrade :=
  {| TradeID := TradeID r;
     Underlying := Underlying r;
     Notional := Notional r;
     NotionalCurrency := NotionalCurrency r;
     Spot := Spot r;
     Strike := Strike r;
     Vol := vol;
     RateDomestic := RateDomestic r;
     RateForeign := RateForeign r;
     Expiry := Expiry r;
     RawOptionType := RawOptionType r |}.

Definition with_RawOptionType (r : RawTrade) (o : string) : RawTrade :=
  {| TradeID := TradeID r;
     Underlying := Underlying r;
     Notional := Notional r;
     NotionalCurrency := NotionalCurrency r;
     Spot := Spot r;
     Strike := Strike r;
     Vol := Vol r;
     RateDomestic := RateDomestic r;
     RateForeign := RateForeign r;
     Expiry := Expiry r;
     RawOptionType := o |}.

(** The trade that [_validate_single_trade] hands to [ValidatedTrade(...)]. *)
Definition candidate (r : RawTrade) (o : OptionType) (p : CurrencyPair)
    : ValidatedTrade :=
  {| trade_id := TradeID r;
     currency_pair := p;
     option_type := o;
     strike := Strike r;
     notional := Notional r;
     notional_currency := NotionalCurrency r;
     time_to_expiry := Expiry r;
     spot := Spot r;
     volatility := Vol r;
     domestic_rate := RateDomestic r;
     foreign_rate := RateForeign r |}.

(** The message that the specification gives for an unknown option type. *)
Definition spec_option_type_message (raw : string) : string :=
  "Invalid OptionType '" ++ raw ++ "'. Must be one of: CALL, PUT".

(** The error line of a record. *)
Definition error_line (id reason : string) : string :=
  "Trade " ++ id ++ ": " ++ reason.

(** What one record adds to each of the two output sequences. *)
Definition valid_of (o : result ValidatedTrade) : list ValidatedTrade :=
  match o with
  | inr v => [v]
  | inl _ => []
  end.

Definition error_of (id : string) (o : result ValidatedTrade) : list string :=
  match o with
  | inr _ => []
  | inl e => [error_line id (str_exn e)]
  end.



(** Stand-ins for the library formatting in closed examples. *)
Definition some_float_str (_ : R) : string := "<float>".
Definition some_error_str (_ : validation_error) : string := "<error>".

(** Records of the test suite. *)
Definition T001 : RawTrade :=
  {| TradeID := "T001";
     Underlying := "EUR/USD";
     Notional := 1000000;
     NotionalCurrency := "USD";
     Spot := 1.1;
     Strike := 1.1;
     Vol := 0.01;
     RateDomestic := 0.01;
     RateForeign := 0.01;
     Expiry := 0.25;
     RawOptionType := "Call" |}.

Definition T002 : RawTrade := with_RawOptionType T001 "INVALID".

Definition priced_T1 : PricedTrade :=
  {| PricedTrade.trade_id := "T1";
     PricedTrade.currency_pair := "EURUSD";
     PricedTrade.option_type := "CALL";
     PricedTrade.strike := 1.10;
     PricedTrade.notional := 1000000;
     PricedTrade.notional_currency := "USD";
     PricedTrade.spot := 1.08;
     PricedTrade.time_to_expiry := 0.5;
     PricedTrade.volatility := 0.12;
     PricedTrade.pv := 25000;
     PricedTrade.delta := 500000;
     PricedTrade.vega := 3000 |}.

(** The priced trade that one turn of the loop of [price_portfolio]
    appends. *)
Definition priced_of (trade : ValidatedTrade) : PricedTrade :=
  {| PricedTrade.trade_id := trade_id trade;
     PricedTrade.currency_pair := CurrencyPair_value (currency_pair trade);
     PricedTrade.option_type := OptionType_value (option_type trade);
     PricedTrade.strike := strike trade;
     PricedTrade.notional := notional trade;
     PricedTrade.notional_currency := notional_currency trade;
     PricedTrade.spot := spot trade;
     PricedTrade.time_to_expiry := time_to_expiry trade;
     PricedTrade.volatility := volatility trade;
     PricedTrade.pv := _calculate_pv trade;
     PricedTrade.delta := _calculate_delta trade;
     PricedTrade.vega := _calculate_vega trade |}.

(** The specification's reading of the priced trade: every field of the
    validated trade is there, with its value. *)
Definition carries_all_fields (t : ValidatedTrade) (p : PricedTrade) : Prop :=
  forall name : string,
    In name (map fst (ValidatedTrade_dump t)) ->
    get_field name (PricedTrade_dump p) = get_field name (ValidatedTrade_dump t).

(** The fields of the validated trade that the priced trade declares. *)
Definition carried_fields : list string :=
  [ "trade_id"; "currency_pair"; "option_type"; "strike"; "notional";
    "notional_currency"; "spot"; "time_to_expiry"; "volatility" ].



(** Trades of the test suite, and one with a negative foreign rate. *)
Definition TEST004 : ValidatedTrade :=
  {| trade_id := "TEST004";
     currency_pair := EURUSD;
     option_type := CALL;
     strike := 1.1;
     notional := 1000000;
     notional_currency := "USD";
     time_to_expiry := 0.5;
     spot := 1.1;
     volatility := 0.10;
     domestic_rate := 0.05;
     foreign_rate := 0.03 |}.

Definition TEST005 : ValidatedTrade :=
  {| trade_id := "TEST005";
     currency_pair := EURUSD;
     option_type := PUT;
     strike := 1.1;
     notional := 1000000;
     notional_currency := "USD";
     time_to_expiry := 0.5;
     spot := 1.1;
     volatility := 0.10;
     domestic_rate := 0.05;
     foreign_rate := 0.03 |}.


Definition T005 : RawTrade :=
  {| TradeID := "T_INVALID";
     Underlying := "EUR/USD";
     Notional := 1000000;
     NotionalCurrency := "USD";
     Spot := 1.1;
     Strike := -1.1;
     Vol := 0.01;
     RateDomestic := 0.01;
     RateForeign := 0.01;
     Expiry := 0.25;
     RawOptionType := "Call" |}.

Definition priced_T2 : PricedTrade :=
  {| PricedTrade.trade_id := "T2";
     PricedTrade.currency_pair := "GBPUSD";
     PricedTrade.option_type := "PUT";
     PricedTrade.strike := 1.25;
     PricedTrade.notional := 500000;
     PricedTrade.notional_currency := "USD";
     PricedTrade.spot := 1.27;
     PricedTrade.time_to_expiry := 0.25;
     PricedTrade.volatility := 0.15;
     PricedTrade.pv := -5000;
     PricedTrade.delta := -250000;
     PricedTrade.vega := 1500 |}.

(** A position in yen on USDJPY, and one with a euro notional. *)
Definition priced_JPY : PricedTrade :=
  {| PricedTrade.trade_id := "J1";
     PricedTrade.currency_pair := "USDJPY";
     PricedTrade.option_type := "CALL";
     PricedTrade.strike := 110;
     PricedTrade.notional := 100000000;
     PricedTrade.notional_currency := "JPY";
     PricedTrade.spot := 110;
     PricedTrade.time_to_expiry := 0.5;
     PricedTrade.volatility := 0.1;
     PricedTrade.pv := 1000000;
     PricedTrade.delta := 500000;
     PricedTrade.vega := 3000 |}.

Definition priced_EUR : PricedTrade :=
  {| PricedTrade.trade_id := "E1";
     PricedTrade.currency_pair := "EURUSD";
     PricedTrade.option_type := "CALL";
     PricedTrade.strike := 1.1;
     PricedTrade.notional := 1000000;
     PricedTrade.notional_currency := "EUR";
     PricedTrade.spot := 1.08;
     PricedTrade.time_to_expiry := 0.5;
     PricedTrade.volatility := 0.12;
     PricedTrade.pv := 25000;
     PricedTrade.delta := 500000;
     PricedTrade.vega := 3000 |}.

(** The trade with another spot, and with another volatility. *)
Definition with_spot (t : ValidatedTrade) (S : R) : ValidatedTrade :=
  {| trade_id := trade_id t;
     currency_pair := currency_pair t;
     option_type := option_type t;
     strike := strike t;
     notional := notional t;
     notional_currency := notional_currency t;
     time_to_expiry := time_to_expiry t;
     spot := S;
     volatility := volatility t;
     domestic_rate := domestic_rate t;
     foreign_rate := foreign_rate t |}.

Definition with_volatility (t : ValidatedTrade) (sigma : R) : ValidatedTrade :=
  {| trade_id := trade_id t;
     currency_pair := currency_pair t;
     option_type := option_type t;
     strike := strike t;
     notional := notional t;
     notional_currency := notional_currency t;
     time_to_expiry := time_to_expiry t;
     spot := spot t;
     volatility := sigma;
     domestic_rate := domestic_rate t;
     foreign_rate := foreign_rate t |}.

(** [s] is the code [base], written in upper-case letters, with each
    letter in either case and with slashes and spaces put in anywhere. *)
Inductive decorated : string -> string -> Prop :=
| decorated_nil : decorated EmptyString EmptyString
| decorated_slash (base s : string) :
    decorated base s -> decorated base (String "/" s)
| decorated_space (base s : string) :
    decorated base s -> decorated base (String " " s)
| decorated_letter (b c : ascii) (base s : string) :
    PyStr.is_upper b = true ->
    c = b \/ c = PyStr.lower_ascii b ->
    decorated base s -> decorated (String b base) (String c s).

(** ** config.py and main.py *)

Module Config.
Record t : Type := mk {
  valuation_date : date;
  reporting_currency : string;
  day_count_convention : string;
  price_decimal_places : nat;
  greek_decimal_places : nat;
  max_volatility : R;
  min_time_to_expiry_years : R;
  output_sheet_trades : string;
  output_sheet_summary : string
}.

(** [Config()]: the defaults, [__post_init__] putting today's date in the
    place of the missing valuation date. *)
Definition default (today : date) : t :=
  {| valuation_date := today;
     reporting_currency := "USD";
     day_count_convention := "ACT/365";
     price_decimal_places := 2;
     greek_decimal_places := 2;
     max_volatility := 1.0;
     min_time_to_expiry_years := 0.01;
     output_sheet_trades := "Trade_Results";
     output_sheet_summary := "Portfolio_Summary" |}.
End Config.

(** [str] of a nonnegative [int]. *)
Definition str_nat (n : nat) : string :=
  DecimalString.NilZero.string_of_uint (Nat.to_uint n).

(** What [run] prints when the validation fails (main.py 51-56), one
    string for each call of [print]. *)
Definition validation_report (errors : list string) : list string :=
  let header :=
    String "010" " Validation failed with " ++ str_nat (List.length errors)
    ++ " errors:" in
  let shown := map (fun error => "  - " ++ error) (firstn 10 errors) in
  let more :=
    if (10 <? List.length errors)%nat
    then ["  ... and " ++ str_nat (List.length errors - 10) ++ " more errors"]
    else [] in
  header :: app shown more.

(** How [FXOptionsRiskAggregator.run] ends once the records are loaded:
    with [sys.exit(1)] after the report of the validation, with the
    exception of the aggregation, or with the call of the writer on the
    priced trades and the summary. The lines of progress that it prints
    on the way are left out. *)
Inductive run_outcome : Type :=
| Exited (status : nat) (report : list string)
| Raised (e : exn)
| Written (priced_trades : list PricedTrade) (summary : PortfolioSummary).

Section Run.

Variable float_str : R -> string.
Variable percent_str : R -> string.
Variable pydantic_str : validation_error -> string.

Definition run (today : date) (config : Config.t)
    (raw_trades : list RawTrade) : run_outcome :=
  let validation_result :=
    validate_trades float_str percent_str pydantic_str raw_trades in
  if negb (is_valid validation_result) then
    Exited 1 (validation_report (errors validation_result))
  else
    let validated_trades := valid_trades validation_result in
    let priced_trades := price_portfolio validated_trades in
    match
      aggregate_portfolio today priced_trades
        (Some (Config.valuation_date config))
        (Config.reporting_currency config)
    with
    | inl e => Raised e
    | inr portfolio_summary => Written priced_trades portfolio_summary
    end.

End Run.


(** A record with its notional in yen on EURUSD. *)
Definition T_JPY : RawTrade :=
  {| TradeID := "T_JPY";
     Underlying := "EUR/USD";
     Notional := 1000000;
     NotionalCurrency := "JPY";
     Spot := 1.1;
     Strike := 1.1;
     Vol := 0.01;
     RateDomestic := 0.01;
     RateForeign := 0.01;
     Expiry := 0.25;
     RawOptionType := "Call" |}.

(** The trade with its spot and its strike multiplied by [c], and the
    trade with its notional multiplied by [c]. *)
Definition rescaled (t : ValidatedTrade) (c : R) : ValidatedTrade :=
  {| trade_id := trade_id t;
     currency_pair := currency_pair t;
     option_type := option_type t;
     strike := c * strike t;
     notional := notional t;
     notional_currency := notional_currency t;
     time_to_expiry := time_to_expiry t;
     spot := c * spot t;
     volatility := volatility t;
     domestic_rate := domestic_rate t;
     foreign_rate := foreign_rate t |}.

Definition with_notional (t : ValidatedTrade) (N : R) : ValidatedTrade :=
  {| trade_id := trade_id t;
     currency_pair := currency_pair t;
     option_type := option_type t;
     strike := strike t;
     notional := N;
     notional_currency := notional_currency t;
     time_to_expiry := time_to_expiry t;
     spot := spot t;
     volatility := volatility t;
     domestic_rate := domestic_rate t;
     foreign_rate := foreign_rate t |}.

(** * Properties *)

(** ** Integrals and derivatives *)

Module CalculusFacts.
Import Calculus.

Lemma integral_0_at_0 (g : R -> R) (Hc : continuity g) : integral_0 g Hc 0 = 0.
Proof. apply RiemannInt_P9. Qed.

(** The integral from [0] is a primitive of the function. *)
Lemma integral_0_derivable_pt_lim (g : R -> R) (Hc : continuity g) (x : R) :
  derivable_pt_lim (integral_0 g Hc) x (g x).
Proof.
  set (a := - (Rabs x + 1)). set (b := Rabs x + 1).
  assert (Hx : a < x < b).
  { unfold a, b. unfold Rabs. destruct (Rcase_abs x); lra. }
  assert (h : a <= b) by lra.
  assert (C0 : forall y, a <= y <= b -> continuity_pt g y).
  { intros y _. apply Hc. }
  assert (Hprim : forall y, a <= y <= b ->
            primitive h (FTC_P1 h C0) y
            = RiemannInt (continuous_integrable g a 0 Hc) + integral_0 g Hc y).
  { intros y [Hy1 Hy2]. unfold primitive, integral_0.
    destruct (Rle_dec a y) as [r | n]; [| lra].
    destruct (Rle_dec y b) as [r0 | n0]; [| lra].
    symmetry. apply RiemannInt_P26. }
  pose proof (RiemannInt_P27 h C0 Hx) as HP.
  intros eps Heps. destruct (HP eps Heps) as [d Hd].
  assert (Hd' : 0 < Rmin d (Rmin (x - a) (b - x))).
  { apply Rmin_pos; [apply cond_pos | apply Rmin_pos; lra]. }
  exists (mkposreal _ Hd'). simpl. intros k Hk Hlt.
  assert (Hk1 : Rabs k < d).
  { eapply Rlt_le_trans; [exact Hlt | apply Rmin_l]. }
  assert (Hk2 : Rabs k < x - a).
  { eapply Rlt_le_trans; [exact Hlt |].
    eapply Rle_trans; [apply Rmin_r | apply Rmin_l]. }
  assert (Hk3 : Rabs k < b - x).
  { eapply Rlt_le_trans; [exact Hlt |].
    eapply Rle_trans; [apply Rmin_r | apply Rmin_r]. }
  assert (Hin : a <= x + k <= b).
  { unfold Rabs in Hk2, Hk3. destruct (Rcase_abs k); lra. }
  specialize (Hd k Hk Hk1).
  rewrite (Hprim (x + k) Hin), (Hprim x) in Hd by lra.
  replace (integral_0 g Hc (x + k) - integral_0 g Hc x)
    with (RiemannInt (continuous_integrable g a 0 Hc) + integral_0 g Hc (x + k)
          - (RiemannInt (continuous_integrable g a 0 Hc) + integral_0 g Hc x))
    by ring.
  exact Hd.
Qed.

Lemma derivable_pt_lim_ext (f g : R -> R) (x l : R) :
  (forall y, f y = g y) -> derivable_pt_lim f x l -> derivable_pt_lim g x l.
Proof.
  intros Heq Hf eps Heps. destruct (Hf eps Heps) as [d Hd].
  exists d. intros h Hh Hlt. rewrite <- !Heq. apply Hd; assumption.
Qed.

Lemma derivable_pt_lim_eq (f : R -> R) (x l l' : R) :
  l = l' -> derivable_pt_lim f x l -> derivable_pt_lim f x l'.
Proof. intros ->. tauto. Qed.

(** A function whose derivative vanishes everywhere is constant. *)
Lemma zero_derivative_constant (f : R -> R) :
  (forall x, derivable_pt_lim f x 0) -> forall x y, f x = f y.
Proof.
  intros HD.
  assert (pr : derivable f) by (intro x; exists 0; apply HD).
  apply (null_derivative_1 f pr). intro x. apply derive_pt_eq_0, HD.
Qed.

(** Two functions with the same derivative that agree at 0 are equal. *)
Lemma same_derivative_eq (f g f' : R -> R) :
  (forall x, derivable_pt_lim f x (f' x)) ->
  (forall x, derivable_pt_lim g x (f' x)) ->
  f 0 = g 0 -> forall x, f x = g x.
Proof.
  intros Hf Hg H0 x.
  assert (H : forall y, derivable_pt_lim (fun t => f t - g t) y 0).
  { intro y. replace 0 with (f' y - f' y) by ring.
    apply derivable_pt_lim_minus; [apply Hf | apply Hg]. }
  pose proof (zero_derivative_constant _ H x 0) as Hc. simpl in Hc. lra.
Qed.

(** A function with a nonnegative derivative does not decrease. *)
Lemma nonneg_derivative_le (f f' : R -> R) (x y : R) :
  (forall t, derivable_pt_lim f t (f' t)) ->
  (forall t, 0 <= f' t) -> x <= y -> f x <= f y.
Proof.
  intros HD Hpos Hxy.
  assert (pr : derivable f) by (intro t; exists (f' t); apply HD).
  apply (nonneg_derivative_1 f pr); [| exact Hxy].
  intro t. rewrite (derive_pt_eq_0 _ _ _ _ (HD t)). apply Hpos.
Qed.

(** A function with a positive derivative increases. *)
Lemma pos_derivative_lt (f f' : R -> R) (x y : R) :
  (forall t, derivable_pt_lim f t (f' t)) ->
  (forall t, 0 < f' t) -> x < y -> f x < f y.
Proof.
  intros HD Hpos Hxy.
  assert (pr : derivable f) by (intro t; exists (f' t); apply HD).
  apply (positive_derivative f pr); [| exact Hxy].
  intro t. rewrite (derive_pt_eq_0 _ _ _ _ (HD t)). apply Hpos.
Qed.

Lemma integral_0_le (f g : R -> R) (Hf : continuity f) (Hg : continuity g)
    (x : R) :
  (forall s, f s <= g s) -> 0 <= x -> integral_0 f Hf x <= integral_0 g Hg x.
Proof.
  intros Hle Hx.
  pose proof (nonneg_derivative_le
                (fun y => integral_0 g Hg y - integral_0 f Hf y)
                (fun y => g y - f y) 0 x) as H.
  simpl in H. rewrite !integral_0_at_0 in H.
  assert (0 - 0 <= integral_0 g Hg x - integral_0 f Hf x); [| lra].
  apply H; [| | exact Hx].
  - intro t. apply derivable_pt_lim_minus; apply integral_0_derivable_pt_lim.
  - intro t. specialize (Hle t). lra.
Qed.

(** The mean value theorem between two points in either order. *)
Lemma mvt_abs (f f1 : R -> R) (a b : R) :
  (forall x, derivable_pt_lim f x (f1 x)) ->
  exists c, f b - f a = f1 c * (b - a) /\ Rabs (c - a) <= Rabs (b - a).
Proof.
  intro HD. destruct (Rtotal_order a b) as [Hab | [Hab | Hab]].
  - destruct (MVT_cor2 f f1 a b Hab (fun c _ => HD c)) as (c & Hc & Hin).
    exists c. split; [exact Hc |].
    rewrite !Rabs_pos_eq by lra. lra.
  - exists a. subst b. split; [ring |].
    replace (a - a) with 0 by ring. rewrite Rabs_R0. lra.
  - destruct (MVT_cor2 f f1 b a Hab (fun c _ => HD c)) as (c & Hc & Hin).
    exists c. split; [lra |].
    rewrite !Rabs_left1 by lra. lra.
Qed.

(** The remainder of the first-order expansion under a bound of the
    second derivative. *)
Lemma taylor2 (f f1 f2 : R -> R) (x0 h M : R) :
  (forall x, derivable_pt_lim f x (f1 x)) ->
  (forall x, derivable_pt_lim f1 x (f2 x)) ->
  (forall x, Rabs (f2 x) <= M) ->
  Rabs (f (x0 + h) - f x0 - h * f1 x0) <= M * (h * h).
Proof.
  intros H1 H2 HM.
  destruct (mvt_abs f f1 x0 (x0 + h) H1) as (c & Hc & Hcb).
  destruct (mvt_abs f1 f2 x0 c H2) as (d & Hd & _).
  replace (x0 + h - x0) with h in * by ring.
  replace (f (x0 + h) - f x0 - h * f1 x0)
    with (f2 d * ((c - x0) * h)) by (rewrite <- Rmult_assoc, <- Hd; lra).
  rewrite Rabs_mult, Rabs_mult.
  pose proof (Rabs_pos (f2 d)). pose proof (Rabs_pos (c - x0)).
  pose proof (Rabs_pos h). specialize (HM d).
  assert (Hh : Rabs h * Rabs h = h * h).
  { rewrite <- Rabs_mult. apply Rabs_pos_eq. nra. }
  rewrite <- Hh. apply Rmult_le_compat; try nra.
Qed.

(** Differentiation under the integral over [0, 1], for an integrand
    with a bounded second derivative in the variable of differentiation. *)
Section UnderIntegral.

Variables psi psi1 psi2 : R -> R -> R.
Hypothesis D1 : forall s x, derivable_pt_lim (fun x => psi x s) x (psi1 x s).
Hypothesis D2 : forall s x, derivable_pt_lim (fun x => psi1 x s) x (psi2 x s).
Hypothesis C0 : forall x, continuity (psi x).
Hypothesis C1 : forall x, continuity (psi1 x).
Variable M : R.
Hypothesis B2 : forall x s, Rabs (psi2 x s) <= M.

Lemma under_integral_increment (x0 h : R) :
  Rabs (integral_0 (psi (x0 + h)) (C0 (x0 + h)) 1
        - integral_0 (psi x0) (C0 x0) 1
        - h * integral_0 (psi1 x0) (C1 x0) 1) <= M * (h * h).
Proof.
  set (D := fun y => integral_0 (psi (x0 + h)) (C0 (x0 + h)) y
                     - integral_0 (psi x0) (C0 x0) y
                     - h * integral_0 (psi1 x0) (C1 x0) y).
  set (r := fun y => psi (x0 + h) y - psi x0 y - h * psi1 x0 y).
  assert (HD : forall y, derivable_pt_lim D y (r y)).
  { intro y. unfold D, r.
    apply derivable_pt_lim_minus; [apply derivable_pt_lim_minus |].
    - apply integral_0_derivable_pt_lim.
    - apply integral_0_derivable_pt_lim.
    - apply derivable_pt_lim_scal, integral_0_derivable_pt_lim. }
  destruct (MVT_cor2 D r 0 1 ltac:(lra) (fun c _ => HD c)) as (c & Hc & _).
  assert (H0 : D 0 = 0).
  { unfold D. rewrite !integral_0_at_0. ring. }
  change (Rabs (D 1) <= M * (h * h)).
  replace (D 1) with (r c) by lra.
  unfold r. apply (taylor2 (fun x => psi x c) (fun x => psi1 x c)
                     (fun x => psi2 x c)); auto.
Qed.

Lemma under_integral_derivative (x0 : R) :
  derivable_pt_lim (fun x => integral_0 (psi x) (C0 x) 1) x0
    (integral_0 (psi1 x0) (C1 x0) 1).
Proof.
  assert (HM : 0 <= M).
  { eapply Rle_trans; [apply Rabs_pos | apply (B2 0 0)]. }
  intros eps Heps.
  assert (Hd : 0 < eps / (M + 1)) by (apply Rdiv_lt_0_compat; lra).
  exists (mkposreal _ Hd). simpl. intros h Hh Hlt.
  pose proof (under_integral_increment x0 h) as Hinc.
  set (E := integral_0 (psi (x0 + h)) (C0 (x0 + h)) 1
            - integral_0 (psi x0) (C0 x0) 1
            - h * integral_0 (psi1 x0) (C1 x0) 1) in *.
  replace ((integral_0 (psi (x0 + h)) (C0 (x0 + h)) 1
            - integral_0 (psi x0) (C0 x0) 1) / h
           - integral_0 (psi1 x0) (C1 x0) 1)
    with (E / h) by (unfold E; field; exact Hh).
  unfold Rdiv. rewrite Rabs_mult, Rabs_inv.
  assert (Hah : 0 < Rabs h) by (apply Rabs_pos_lt; exact Hh).
  apply Rmult_lt_reg_r with (Rabs h); [exact Hah |].
  rewrite Rmult_assoc, Rinv_l, Rmult_1_r by lra.
  eapply Rle_lt_trans; [exact Hinc |].
  assert (Hhh : h * h = Rabs h * Rabs h).
  { rewrite <- Rabs_mult. symmetry. apply Rabs_pos_eq. nra. }
  rewrite Hhh.
  assert (Hlt' : Rabs h * (M + 1) < eps).
  { apply Rmult_lt_reg_r with (/ (M + 1)); [apply Rinv_0_lt_compat; lra |].
    rewrite Rmult_assoc, Rinv_r, Rmult_1_r by lra. exact Hlt. }
  nra.
Qed.

End UnderIntegral.

End CalculusFacts.

(** ** The standard normal distribution *)

Module norm_facts.
Import Calculus CalculusFacts norm.

Lemma kernel_pos (t : R) : 0 < kernel t.
Proof. apply exp_pos. Qed.

Lemma kernel_even (t : R) : kernel (- t) = kernel t.
Proof. unfold kernel. f_equal. field. Qed.

Lemma mass_0 : mass 0 = 0.
Proof. apply integral_0_at_0. Qed.

Lemma mass_derivable_pt_lim (x : R) : derivable_pt_lim mass x (kernel x).
Proof. apply integral_0_derivable_pt_lim. Qed.

Lemma mass_increasing (x y : R) : x < y -> mass x < mass y.
Proof.
  apply (pos_derivative_lt mass kernel).
  - exact mass_derivable_pt_lim.
  - exact kernel_pos.
Qed.

Lemma mass_odd (x : R) : mass (- x) = - mass x.
Proof.
  assert (HD : forall y, derivable_pt_lim (fun y => mass y + mass (- y)) y 0).
  { intro y.
    apply derivable_pt_lim_eq with (kernel y + kernel (- y) * (- 1)).
    { rewrite kernel_even. ring. }
    apply derivable_pt_lim_plus; [apply mass_derivable_pt_lim |].
    apply (derivable_pt_lim_comp (fun t => - t) mass).
    - apply derivable_pt_lim_opp, derivable_pt_lim_id.
    - apply mass_derivable_pt_lim. }
  pose proof (zero_derivative_constant _ HD x 0) as Hc. simpl in Hc.
  replace (- 0) with 0 in Hc by ring. rewrite mass_0 in Hc. lra.
Qed.

(** [exp (- x^2 * a / 2)] and its derivative in [x]. *)
Lemma gauss_exp_derivable_pt_lim (a x : R) :
  derivable_pt_lim (fun x => exp (- x ^ 2 * a / 2)) x
    (- x * a * exp (- x ^ 2 * a / 2)).
Proof.
  apply (derivable_pt_lim_ext (comp exp (fun x => x ^ 2 * (- a / 2)))).
  { intro y. unfold comp. f_equal. field. }
  apply derivable_pt_lim_eq
    with (exp (x ^ 2 * (- a / 2)) * (INR 2 * x ^ pred 2 * (- a / 2))).
  { simpl. replace (x * (x * 1) * (- a / 2)) with (- (x * (x * 1)) * a / 2)
      by field. field. }
  apply derivable_pt_lim_comp.
  - apply derivable_pt_lim_scal_right, derivable_pt_lim_pow.
  - apply derivable_pt_lim_exp.
Qed.

(** *** The Gaussian integral

    With [aux x] the integral over [0, 1] of
    [exp (- x^2 * (1 + s^2) / 2) / (1 + s^2)], the function
    [mass x ^ 2 + 2 * aux x] has a vanishing derivative, and its value at
    [0] is [2 * atan 1]. *)

Definition psi (x s : R) : R := exp (- x ^ 2 * (1 + s ^ 2) / 2) / (1 + s ^ 2).
Definition psi1 (x s : R) : R := - x * exp (- x ^ 2 * (1 + s ^ 2) / 2).
Definition psi2 (x s : R) : R :=
  (x ^ 2 * (1 + s ^ 2) - 1) * exp (- x ^ 2 * (1 + s ^ 2) / 2).

Lemma one_plus_sqr_pos (s : R) : 0 < 1 + s ^ 2.
Proof. pose proof (pow2_ge_0 s). lra. Qed.

Lemma psi_D1 (s x : R) : derivable_pt_lim (fun x => psi x s) x (psi1 x s).
Proof.
  pose proof (one_plus_sqr_pos s) as Ha.
  unfold psi, psi1.
  apply derivable_pt_lim_eq
    with (- x * (1 + s ^ 2) * exp (- x ^ 2 * (1 + s ^ 2) / 2) * / (1 + s ^ 2)).
  { field. lra. }
  apply (derivable_pt_lim_scal_right
           (fun x => exp (- x ^ 2 * (1 + s ^ 2) / 2))).
  apply gauss_exp_derivable_pt_lim.
Qed.

Lemma psi_D2 (s x : R) : derivable_pt_lim (fun x => psi1 x s) x (psi2 x s).
Proof.
  unfold psi1, psi2.
  apply derivable_pt_lim_eq
    with (- 1 * exp (- x ^ 2 * (1 + s ^ 2) / 2)
          + - x * (- x * (1 + s ^ 2) * exp (- x ^ 2 * (1 + s ^ 2) / 2))).
  { ring. }
  apply (derivable_pt_lim_mult (fun x => - x)
           (fun x => exp (- x ^ 2 * (1 + s ^ 2) / 2))).
  - apply derivable_pt_lim_opp, derivable_pt_lim_id.
  - apply gauss_exp_derivable_pt_lim.
Qed.

Lemma psi1_factor (x s : R) : psi1 x s = - kernel x * (kernel (x * s) * x).
Proof.
  unfold psi1, kernel.
  replace (- x ^ 2 * (1 + s ^ 2) / 2)
    with (- x ^ 2 / 2 + - (x * s) ^ 2 / 2) by field.
  rewrite exp_plus. ring.
Qed.

Lemma psi_C0 (x : R) : continuity (psi x).
Proof.
  apply (continuity_div (fun s => exp (- x ^ 2 * (1 + s ^ 2) / 2))
           (fun s => 1 + s ^ 2)).
  - apply derivable_continuous. reg.
  - apply derivable_continuous. reg.
  - intro s. pose proof (one_plus_sqr_pos s). lra.
Qed.

Lemma psi_C1 (x : R) : continuity (psi1 x).
Proof. apply derivable_continuous. unfold psi1. reg. Qed.

Lemma psi_B2 (x s : R) : Rabs (psi2 x s) <= 2.
Proof.
  unfold psi2. set (u := x ^ 2 * (1 + s ^ 2)).
  assert (Hu : 0 <= u).
  { unfold u. apply Rmult_le_pos; [apply pow2_ge_0 |].
    left. apply one_plus_sqr_pos. }
  replace (- x ^ 2 * (1 + s ^ 2) / 2) with (- (u / 2)) by (unfold u; field).
  rewrite Rabs_mult, (Rabs_pos_eq (exp _)) by (left; apply exp_pos).
  rewrite exp_Ropp.
  pose proof (exp_ineq1_le (u / 2)) as He.
  assert (Hpos : 0 < exp (u / 2)) by apply exp_pos.
  apply Rmult_le_reg_r with (exp (u / 2)); [exact Hpos |].
  rewrite Rmult_assoc, Rinv_l, Rmult_1_r by lra.
  assert (Rabs (u - 1) <= u + 1).
  { unfold Rabs. destruct (Rcase_abs (u - 1)); lra. }
  lra.
Qed.

Definition aux (x : R) : R := integral_0 (psi x) (psi_C0 x) 1.

Lemma aux_derivable_pt_lim (x : R) :
  derivable_pt_lim aux x (- kernel x * mass x).
Proof.
  apply derivable_pt_lim_eq with (integral_0 (psi1 x) (psi_C1 x) 1).
  - replace (mass x) with (mass (x * 1)) by (f_equal; ring).
    generalize 1.
    apply (same_derivative_eq _ _ (psi1 x)).
    + apply integral_0_derivable_pt_lim.
    + intro y. rewrite psi1_factor.
      apply (derivable_pt_lim_scal (fun y => mass (x * y))).
      apply (derivable_pt_lim_comp (fun y => x * y) mass).
      * apply derivable_pt_lim_eq with (x * 1); [ring |].
        apply (derivable_pt_lim_scal id), derivable_pt_lim_id.
      * apply mass_derivable_pt_lim.
    + rewrite integral_0_at_0, Rmult_0_r, mass_0. ring.
  - apply (under_integral_derivative psi psi1 psi2 psi_D1 psi_D2 psi_C0
             psi_C1 2 psi_B2).
Qed.

Lemma aux_0 : aux 0 = PI / 4.
Proof.
  unfold aux. rewrite <- atan_1. generalize 1.
  apply (same_derivative_eq _ _ (psi 0)).
  - apply integral_0_derivable_pt_lim.
  - intro s. apply derivable_pt_lim_eq with (/ (1 + s ^ 2)).
    + unfold psi. replace (- 0 ^ 2 * (1 + s ^ 2) / 2) with 0 by field.
      rewrite exp_0. pose proof (one_plus_sqr_pos s). field. lra.
    + apply derivable_pt_lim_atan.
  - now rewrite integral_0_at_0, atan_0.
Qed.

Lemma aux_pos (x : R) : 0 <= aux x.
Proof.
  unfold aux. rewrite <- (integral_0_at_0 (psi x) (psi_C0 x)).
  apply (nonneg_derivative_le _ (psi x)); [| | lra].
  - apply integral_0_derivable_pt_lim.
  - intro s. unfold psi. left.
    apply Rdiv_lt_0_compat; [apply exp_pos | apply one_plus_sqr_pos].
Qed.

Lemma kernel_const_continuity (x : R) : continuity (fun _ : R => kernel x).
Proof. apply continuity_const. intros s t. reflexivity. Qed.

Lemma aux_le_kernel (x : R) : aux x <= kernel x.
Proof.
  assert (Hk : forall y,
            integral_0 (fun _ => kernel x) (kernel_const_continuity x) y
            = kernel x * y).
  { apply (same_derivative_eq _ _ (fun _ => kernel x)).
    - apply integral_0_derivable_pt_lim.
    - intro y. apply derivable_pt_lim_eq with (kernel x * 1); [ring |].
      apply (derivable_pt_lim_scal id), derivable_pt_lim_id.
    - rewrite integral_0_at_0. ring. }
  replace (kernel x) with (kernel x * 1) at 1 by ring.
  rewrite <- Hk. unfold aux. apply integral_0_le; [| lra].
  intro s. unfold psi, kernel.
  pose proof (one_plus_sqr_pos s) as Ha. pose proof (pow2_ge_0 s) as Hs.
  pose proof (pow2_ge_0 x) as Hx.
  assert (He : exp (- x ^ 2 * (1 + s ^ 2) / 2) <= exp (- x ^ 2 / 2)).
  { destruct (Req_dec (- x ^ 2 * (1 + s ^ 2) / 2) (- x ^ 2 / 2)) as [-> | Hne];
      [lra |].
    left. apply exp_increasing. nra. }
  pose proof (exp_pos (- x ^ 2 * (1 + s ^ 2) / 2)) as Hp.
  apply Rmult_le_reg_r with (1 + s ^ 2); [exact Ha |].
  unfold Rdiv. rewrite Rmult_assoc, Rinv_l, Rmult_1_r by lra.
  pose proof (exp_pos (- x ^ 2 / 2)). nra.
Qed.

(** The square of the mass and twice the auxiliary integral add up to
    [PI / 2]. *)
Lemma mass_sqr_aux (x : R) : mass x * mass x + 2 * aux x = PI / 2.
Proof.
  assert (HD : forall y,
            derivable_pt_lim (fun y => mass y * mass y + 2 * aux y) y 0).
  { intro y.
    apply derivable_pt_lim_eq
      with (kernel y * mass y + mass y * kernel y
            + 2 * (- kernel y * mass y)); [ring |].
    apply derivable_pt_lim_plus.
    - apply (derivable_pt_lim_mult mass mass); apply mass_derivable_pt_lim.
    - apply (derivable_pt_lim_scal aux), aux_derivable_pt_lim. }
  rewrite (zero_derivative_constant _ HD x 0).
  rewrite mass_0, aux_0. field.
Qed.

Lemma half_pi_pos : 0 < PI / 2.
Proof. pose proof PI_RGT_0. lra. Qed.

Lemma sqrt_half_pi_sqr : sqrt (PI / 2) * sqrt (PI / 2) = PI / 2.
Proof. apply sqrt_def. left. apply half_pi_pos. Qed.

Lemma sqrt_two_pi : sqrt (2 * PI) = 2 * sqrt (PI / 2).
Proof.
  replace (2 * PI) with (2 * 2 * (PI / 2)) by field.
  rewrite sqrt_mult_alt by lra.
  rewrite sqrt_square by lra. reflexivity.
Qed.

Lemma sqrt_two_pi_pos : 0 < sqrt (2 * PI).
Proof. apply sqrt_lt_R0. pose proof PI_RGT_0. lra. Qed.

(** The mass stays below its limit, the square root of [PI / 2]. *)
Lemma mass_lt_limit (x : R) : mass x < sqrt (PI / 2).
Proof.
  assert (Hle : forall y, mass y <= sqrt (PI / 2)).
  { intro y. pose proof (mass_sqr_aux y) as H. pose proof (aux_pos y) as Ha.
    pose proof sqrt_half_pi_sqr as Hs.
    assert (Hp : 0 < sqrt (PI / 2)) by (apply sqrt_lt_R0, half_pi_pos).
    destruct (Rle_dec (mass y) (sqrt (PI / 2))) as [Hy | Hy]; [exact Hy |].
    exfalso. nra. }
  apply Rlt_le_trans with (mass (x + 1)); [| apply Hle].
  apply mass_increasing. lra.
Qed.

(** The mass tends to the square root of [PI / 2]. *)
Lemma mass_limit (eps : R) :
  0 < eps -> exists A, forall x, A <= x -> sqrt (PI / 2) - eps < mass x.
Proof.
  intro Heps.
  assert (Hp : 0 < sqrt (PI / 2)) by (apply sqrt_lt_R0, half_pi_pos).
  set (L := sqrt (PI / 2)) in *.
  exists (1 + 4 / (eps * L)). intros x Hx.
  assert (Hq : 0 < 4 / (eps * L)).
  { apply Rdiv_lt_0_compat; [lra | apply Rmult_lt_0_compat; lra]. }
  assert (Hx1 : 1 < x) by lra.
  assert (Hm : 0 < mass x).
  { rewrite <- mass_0. apply mass_increasing. lra. }
  pose proof (mass_sqr_aux x) as Hsq. pose proof (aux_le_kernel x) as Hak.
  pose proof sqrt_half_pi_sqr as Hs. fold L in Hs.
  assert (Hk : kernel x * x < 2).
  { unfold kernel. replace (- x ^ 2 / 2) with (- (x ^ 2 / 2)) by field.
    rewrite exp_Ropp.
    pose proof (exp_ineq1_le (x ^ 2 / 2)) as He.
    assert (Hpos : 0 < exp (x ^ 2 / 2)) by apply exp_pos.
    apply Rmult_lt_reg_l with (exp (x ^ 2 / 2)); [exact Hpos |].
    rewrite <- Rmult_assoc, Rinv_r, Rmult_1_l by lra. nra. }
  assert (Hd : (L - mass x) * L <= 2 * kernel x).
  { assert ((L - mass x) * (L + mass x) <= 2 * kernel x) by nra.
    pose proof (mass_lt_limit x) as Hlt. fold L in Hlt. nra. }
  assert (Hxe : 4 < x * (eps * L)).
  { assert (4 / (eps * L) < x) by lra.
    assert (Hel : 0 < eps * L) by (apply Rmult_lt_0_compat; lra).
    apply Rmult_lt_compat_r with (r := eps * L) in H; [| exact Hel].
    unfold Rdiv in H. rewrite Rmult_assoc, Rinv_l, Rmult_1_r in H by lra.
    exact H. }
  pose proof (kernel_pos x) as Hkp.
  assert (Hfin : (L - mass x) * L < eps * L).
  { eapply Rle_lt_trans; [exact Hd |].
    apply Rmult_lt_reg_r with x; [lra |].
    nra. }
  apply Rmult_lt_reg_r in Hfin; [lra | exact Hp].
Qed.

(** *** The density and the distribution function *)

Lemma pdf_pos (x : R) : 0 < pdf x.
Proof.
  unfold pdf. apply Rdiv_lt_0_compat; [apply exp_pos | apply sqrt_two_pi_pos].
Qed.

(** The distribution function is a primitive of the density. *)
Lemma cdf_derivable_pt_lim (x : R) : derivable_pt_lim cdf x (pdf x).
Proof.
  unfold cdf, pdf.
  apply derivable_pt_lim_eq with (0 + kernel x * / sqrt (2 * PI));
    [unfold kernel, Rdiv; ring |].
  apply (derivable_pt_lim_plus (fun _ => 1 / 2)
           (fun x => mass x / sqrt (2 * PI))).
  - apply derivable_pt_lim_const.
  - apply (derivable_pt_lim_scal_right mass), mass_derivable_pt_lim.
Qed.


Lemma cdf_opp (x : R) : cdf (- x) = 1 - cdf x.
Proof. unfold cdf. rewrite mass_odd. field. apply Rgt_not_eq, sqrt_two_pi_pos. Qed.


Lemma cdf_lt_1 (x : R) : cdf x < 1.
Proof.
  pose proof (mass_lt_limit x) as Hm.
  assert (Hp : 0 < sqrt (PI / 2)) by (apply sqrt_lt_R0, half_pi_pos).
  unfold cdf. rewrite sqrt_two_pi.
  assert (mass x / (2 * sqrt (PI / 2)) < 1 / 2); [| lra].
  apply Rmult_lt_reg_r with (2 * sqrt (PI / 2)); [lra |].
  unfold Rdiv. rewrite Rmult_assoc, Rinv_l by lra. lra.
Qed.

Lemma cdf_pos (x : R) : 0 < cdf x.
Proof.
  pose proof (cdf_lt_1 (- x)) as H. rewrite cdf_opp in H. lra.
Qed.

(** The distribution function tends to 1. *)
Lemma cdf_limit (eps : R) :
  0 < eps -> exists A, forall x, A <= x -> 1 - eps < cdf x.
Proof.
  intro Heps.
  assert (Hp : 0 < sqrt (PI / 2)) by (apply sqrt_lt_R0, half_pi_pos).
  destruct (mass_limit (eps * (2 * sqrt (PI / 2)))) as [A HA].
  { apply Rmult_lt_0_compat; lra. }
  exists A. intros x Hx. specialize (HA x Hx).
  unfold cdf. rewrite sqrt_two_pi.
  assert (1 / 2 - eps < mass x / (2 * sqrt (PI / 2))); [| lra].
  apply Rmult_lt_reg_r with (2 * sqrt (PI / 2)); [lra |].
  unfold Rdiv. rewrite (Rmult_assoc (mass x)), Rinv_l by lra. lra.
Qed.

End norm_facts.

(** Decides the comparisons of concrete reals that a goal branches on. *)
Ltac case_R_dec :=
  repeat match goal with
         | |- context [Rlt_dec ?a ?b] =>
             destruct (Rlt_dec a b); try (exfalso; lra)
         | |- context [Rle_dec ?a ?b] =>
             destruct (Rle_dec a b); try (exfalso; lra)
         | |- context [Req_dec_T ?a ?b] =>
             destruct (Req_dec_T a b); try (exfalso; lra)
         end.

(** ** Strings *)

Lemma upper_lower_ascii (b : ascii) :
  PyStr.upper_ascii (PyStr.lower_ascii b) = PyStr.upper_ascii b.
Proof. destruct b as [[] [] [] [] [] [] [] []]; reflexivity. Qed.

Lemma upper_upper_ascii (b : ascii) :
  PyStr.upper_ascii (PyStr.upper_ascii b) = PyStr.upper_ascii b.
Proof. destruct b as [[] [] [] [] [] [] [] []]; reflexivity. Qed.

Lemma upper_of_casing (base s : string) :
  PyStr.casing_of base s -> PyStr.upper s = PyStr.upper base.
Proof.
  revert s. induction base as [| b base IH]; intros [| c s]; simpl; try tauto.
  intros [[-> | ->] Hc]; rewrite (IH s Hc); f_equal.
  - apply upper_lower_ascii.
  - apply upper_upper_ascii.
Qed.

Lemma upper_idempotent (s : string) : PyStr.upper (PyStr.upper s) = PyStr.upper s.
Proof.
  induction s as [| c s IH]; simpl; [reflexivity |].
  now rewrite upper_upper_ascii, IH.
Qed.

(** ** Validator *)

Lemma check_gt_nil (name : string) (b x : R) : check_gt name b x = [] <-> b < x.
Proof. unfold check_gt. destruct (Rlt_dec b x); split; (congruence || tauto). Qed.

Lemma check_ge_nil (name : string) (b x : R) : check_ge name b x = [] <-> b <= x.
Proof. unfold check_ge. destruct (Rle_dec b x); split; (congruence || tauto). Qed.

Lemma check_le_nil (name : string) (b x : R) : check_le name b x = [] <-> x <= b.
Proof. unfold check_le. destruct (Rle_dec x b); split; (congruence || tauto). Qed.

Lemma app_nil_iff {A : Type} (l1 l2 : list A) :
  (l1 ++ l2)%list = [] <-> l1 = [] /\ l2 = [].
Proof.
  split.
  - apply app_eq_nil.
  - intros [-> ->]. reflexivity.
Qed.

Lemma field_errors_nil (v : ValidatedTrade) :
  field_errors v = [] <->
  0 < strike v /\ 0 < notional v /\
  0 < time_to_expiry v <= 10 /\ 0 < spot v /\
  0 < volatility v <= 5 /\
  -0.1 <= domestic_rate v <= 1 /\ -0.1 <= foreign_rate v <= 1.
Proof.
  unfold field_errors.
  rewrite !app_nil_iff, !check_gt_nil, !check_ge_nil, !check_le_nil.
  tauto.
Qed.

Lemma is_nil_true {A : Type} (l : list A) : is_nil l = true <-> l = [].
Proof. destruct l; simpl; split; congruence. Qed.

Section ValidatorProperties.

Variable float_str : R -> string.
Variable percent_str : R -> string.
Variable pydantic_str : validation_error -> string.

Local Notation "'init'" := (ValidatedTrade_init percent_str).
Local Notation "'validate1'" :=
  (_validate_single_trade float_str percent_str pydantic_str).
Local Notation "'validate_all'" :=
  (validate_trades float_str percent_str pydantic_str).
Local Notation "'step'" := (validate_step float_str percent_str pydantic_str).

Lemma ValidatedTrade_init_ok (v v' : ValidatedTrade) :
  init v = inr v' <-> is_validated v /\ v' = v.
Proof.
  unfold ValidatedTrade_init, validate_business_rules, is_validated.
  destruct (is_nil (field_errors v)) eqn:En.
  - apply is_nil_true in En.
    destruct (Rlt_dec 1 (volatility v)) as [Hv | Hv].
    + split; [discriminate | tauto].
    + destruct (existsb _ _) eqn:Ec; simpl.
      * split; [intros [= <-]; tauto | intros [_ ->]; reflexivity].
      * split; [discriminate | intros [(_ & _ & H) _]; discriminate].
  - split; [discriminate |].
    intros [(H & _) _]. rewrite H in En. discriminate.
Qed.

Lemma validate_single_ok (r : RawTrade) (v : ValidatedTrade) :
  validate1 r = inr v <->
  exists o p,
    parse_option_type (RawOptionType r) = inr o /\
    parse_currency_pair (Underlying r) = inr p /\
    0 < Expiry r /\
    is_validated (candidate r o p) /\
    v = candidate r o p.
Proof.
  unfold _validate_single_trade, bind.
  destruct (parse_option_type (RawOptionType r)) as [e | o].
  { split; [discriminate | intros (o & p & H & _); discriminate]. }
  destruct (parse_currency_pair (Underlying r)) as [e | p].
  { split; [discriminate | intros (o' & p & _ & H & _); discriminate]. }
  destruct (Rle_dec (Expiry r) 0) as [He | He].
  { split; [discriminate | intros (o' & p' & _ & _ & H & _); lra]. }
  fold (candidate r o p).
  destruct (init (candidate r o p)) as [e | v'] eqn:Ei.
  - split; [discriminate |].
    intros (o' & p' & [= <-] & [= <-] & _ & Hv & _).
    assert (init (candidate r o p) = inr (candidate r o p)) as Hi
      by (apply ValidatedTrade_init_ok; tauto).
    congruence.
  - apply ValidatedTrade_init_ok in Ei. destruct Ei as [Hv ->].
    split.
    + intros [= <-]. exists o, p.
      split; [reflexivity |]. split; [reflexivity |].
      split; [lra |]. split; [exact Hv | reflexivity].
    + intros (o' & p' & [= <-] & [= <-] & _ & _ & ->). reflexivity.
Qed.

Lemma fold_validate_step (raws : list RawTrade)
    (vs : list ValidatedTrade) (es : list string) :
  fold_left step raws (vs, es)
  = ((vs ++ flat_map (fun r => valid_of (validate1 r)) raws)%list,
     (es ++ flat_map (fun r => error_of (TradeID r) (validate1 r)) raws)%list).
Proof.
  revert vs es. induction raws as [| r raws IH]; intros vs es; simpl.
  - now rewrite !app_nil_r.
  - unfold validate_step at 2. unfold error_line.
    destruct (validate1 r) as [e | v]; simpl; rewrite IH;
      now rewrite <- ?app_assoc.
Qed.

Lemma validate_trades_flat_map (raws : list RawTrade) :
  valid_trades (validate_all raws)
    = flat_map (fun r => valid_of (validate1 r)) raws /\
  errors (validate_all raws)
    = flat_map (fun r => error_of (TradeID r) (validate1 r)) raws.
Proof.
  unfold validate_trades. rewrite fold_validate_step. simpl. tauto.
Qed.

Lemma parse_option_type_unknown (raw : string) :
  PyStr.upper raw <> "CALL" -> PyStr.upper raw <> "PUT" ->
  parse_option_type raw
  = raise (ValueError ("Invalid OptionType '" ++ raw
                       ++ "'. Must be one of: ['CALL', 'PUT']")).
Proof.
  intros Hc Hp.
  unfold parse_option_type, OptionType_of_value, enum_of_value,
    OptionType_members, find, OptionType_value.
  destruct (String.eqb_spec "CALL" (PyStr.upper raw)) as [E | _];
    [congruence |].
  destruct (String.eqb_spec "PUT" (PyStr.upper raw)) as [E | _];
    [congruence |].
  reflexivity.
Qed.

Lemma parse_option_type_upper (raw : string) (o : OptionType) :
  PyStr.upper raw = OptionType_value o -> parse_option_type raw = ret o.
Proof.
  intro H. unfold parse_option_type. rewrite H. destruct o; reflexivity.
Qed.

Lemma validate_single_option_type (r : RawTrade) (o : OptionType) :
  PyStr.upper (RawOptionType r) = OptionType_value o ->
  validate1 r = validate1 (with_RawOptionType r (OptionType_value o)).
Proof.
  intro H. unfold _validate_single_trade. simpl RawOptionType.
  rewrite (parse_option_type_upper _ o H).
  rewrite (parse_option_type_upper (OptionType_value o) o)
    by (destruct o; reflexivity).
  reflexivity.
Qed.

(** Every trade that [validate_trades] returns satisfies the constraints. *)
Lemma validate_trades_validated (raw_trades : list RawTrade) :
  Forall is_validated (valid_trades (validate_all raw_trades)).
Proof.
  destruct (validate_trades_flat_map raw_trades) as [-> _].
  apply Forall_forall. intros v Hin. apply in_flat_map in Hin.
  destruct Hin as (r & _ & Hin).
  destruct (validate1 r) as [e | v'] eqn:Hr; simpl in Hin; [contradiction |].
  destruct Hin as [<- | []]. apply validate_single_ok in Hr.
  destruct Hr as (o & p & _ & _ & _ & Hv & ->). exact Hv.
Qed.

(** C3: [validate_trades] treats every record on its own: the valid trades
    and the error lines are, in input order, what each record yields by
    itself; a record yields exactly one element, to one of the two
    sequences, so that their lengths add up to the length of the input;
    every error line reads [Trade <trade_id>: <reason>]; [is_valid] holds
    exactly when there is no error line; and validating a concatenation is
    concatenating the validations. *)
Theorem C3_validate_trades_partial_failure (raw_trades : list RawTrade) :
  valid_trades (validate_all raw_trades)
    = flat_map (fun r => valid_of (validate1 r)) raw_trades /\
  errors (validate_all raw_trades)
    = flat_map (fun r => error_of (TradeID r) (validate1 r)) raw_trades /\
  (forall r : RawTrade,
      List.length (valid_of (validate1 r))
      + List.length (error_of (TradeID r) (validate1 r)) = 1)%nat /\
  (List.length (valid_trades (validate_all raw_trades))
   + List.length (errors (validate_all raw_trades))
   = List.length raw_trades)%nat /\
  Forall (fun e : string =>
            exists r reason,
              In r raw_trades /\ e = "Trade " ++ TradeID r ++ ": " ++ reason)
         (errors (validate_all raw_trades)) /\
  (is_valid (validate_all raw_trades) = true
   <-> errors (validate_all raw_trades) = []) /\
  (forall xs ys : list RawTrade,
      raw_trades = (xs ++ ys)%list ->
      valid_trades (validate_all raw_trades)
        = (valid_trades (validate_all xs)
           ++ valid_trades (validate_all ys))%list /\
      errors (validate_all raw_trades)
        = (errors (validate_all xs) ++ errors (validate_all ys))%list).
Proof.
  destruct (validate_trades_flat_map raw_trades) as [Hv He].
  assert (Hone : forall r : RawTrade,
             (List.length (valid_of (validate1 r))
              + List.length (error_of (TradeID r) (validate1 r)) = 1)%nat).
  { intro r. destruct (validate1 r); reflexivity. }
  split; [exact Hv |]. split; [exact He |]. split; [exact Hone |].
  split; [| split; [| split]].
  - rewrite Hv, He. clear Hv He.
    induction raw_trades as [| r raws IH]; simpl; [reflexivity |].
    rewrite !length_app. specialize (Hone r). lia.
  - rewrite He. apply Forall_forall. intros e Hin.
    apply in_flat_map in Hin. destruct Hin as (r & Hr & Hin).
    destruct (validate1 r) as [ex | v]; simpl in Hin; [| contradiction].
    destruct Hin as [<- | []]. exists r, (str_exn ex). split; [exact Hr |].
    reflexivity.
  - unfold is_valid. destruct (errors (validate_all raw_trades)); simpl;
      split; congruence.
  - intros xs ys ->.
    destruct (validate_trades_flat_map xs) as [Hvx Hex].
    destruct (validate_trades_flat_map ys) as [Hvy Hey].
    rewrite Hv, He, Hvx, Hex, Hvy, Hey, !flat_map_app. tauto.
Qed.

(** C5 (as the code has it): given a record whose other fields validate,
    validation accepts a volatility exactly when it lies in (0, 1]. The
    field bound alone admits everything in (0, 5]; a volatility in (1, 5]
    passes the field bounds and is turned down by the business rule of the
    model validator. *)
Theorem C5_volatility_ceiling (r : RawTrade) (vol : R) :
  (exists vol0 v0, validate1 (with_Vol r vol0) = inr v0) ->
  ((exists v, validate1 (with_Vol r vol) = inr v) <-> 0 < vol <= 1) /\
  ((check_gt "volatility" 0 vol ++ check_le "volatility" 5 vol)%list = []
   <-> 0 < vol <= 5) /\
  (1 < vol <= 5 ->
   validate1 (with_Vol r vol)
   = raise (ValueError
       ("Validation error: "
        ++ pydantic_str
             (ModelValueError
                ("Volatility " ++ percent_str vol
                 ++ " seems unreasonably high"))))).
Proof.
  intros (vol0 & v0 & H0).
  apply validate_single_ok in H0.
  destruct H0 as (o & p & Ho & Hp & Hexp & (Hf & Hv1 & Hccy) & _).
  simpl in Ho, Hp, Hexp.
  apply field_errors_nil in Hf. simpl in Hf, Hccy.
  split; [| split].
  - split.
    + intros [v Hv]. apply validate_single_ok in Hv.
      destruct Hv as (o' & p' & _ & _ & _ & (Hf' & Hv' & _) & _).
      apply field_errors_nil in Hf'. simpl in Hf', Hv'. lra.
    + intros Hvol. exists (candidate (with_Vol r vol) o p).
      apply validate_single_ok. exists o, p. simpl.
      split; [exact Ho |]. split; [exact Hp |]. split; [exact Hexp |].
      split; [| reflexivity].
      split; [| split].
      * apply field_errors_nil. simpl. lra.
      * simpl. lra.
      * exact Hccy.
  - rewrite app_nil_iff, check_gt_nil, check_le_nil. tauto.
  - intros Hvol. unfold _validate_single_trade, bind. simpl.
    rewrite Ho, Hp.
    destruct (Rle_dec (Expiry r) 0) as [He | _]; [lra |].
    unfold ValidatedTrade_init.
    replace (is_nil (field_errors _)) with true.
    2:{ symmetry. apply is_nil_true, field_errors_nil. simpl. lra. }
    unfold validate_business_rules. simpl.
    destruct (Rlt_dec 1 vol) as [_ | Hn]; [reflexivity | lra].
Qed.

(** C6 (as the code has it): a record whose option type is, upper-cased,
    neither CALL nor PUT fails with the message
    [Invalid OptionType '<raw>'. Must be one of: ['CALL', 'PUT']], which
    [validate_trades] reports behind [Trade <trade_id>: ]; any casing of
    call or put is read as the member CALL or PUT and validates as the
    upper-case spelling does. *)
Theorem C6_option_type_normalization (r : RawTrade) :
  (PyStr.upper (RawOptionType r) <> "CALL" ->
   PyStr.upper (RawOptionType r) <> "PUT" ->
   validate1 r
   = raise (ValueError ("Invalid OptionType '" ++ RawOptionType r
                        ++ "'. Must be one of: ['CALL', 'PUT']")) /\
   errors (validate_all [r])
   = ["Trade " ++ TradeID r ++ ": " ++ "Invalid OptionType '"
      ++ RawOptionType r ++ "'. Must be one of: ['CALL', 'PUT']"] /\
   valid_trades (validate_all [r]) = []) /\
  (forall o : OptionType,
      PyStr.casing_of (OptionType_value o) (RawOptionType r) ->
      parse_option_type (RawOptionType r) = ret o /\
      validate1 r = validate1 (with_RawOptionType r (OptionType_value o)) /\
      forall v, validate1 r = inr v -> option_type v = o).
Proof.
  split.
  - intros Hc Hp.
    assert (H1 : validate1 r
                 = raise (ValueError ("Invalid OptionType '" ++ RawOptionType r
                            ++ "'. Must be one of: ['CALL', 'PUT']"))).
    { unfold _validate_single_trade.
      rewrite (parse_option_type_unknown _ Hc Hp). reflexivity. }
    split; [exact H1 |].
    unfold validate_trades. simpl. unfold validate_step.
    rewrite H1. simpl. split; reflexivity.
  - intros o Hcase.
    pose proof (upper_of_casing _ _ Hcase) as Hup.
    assert (Hval : PyStr.upper (OptionType_value o) = OptionType_value o)
      by (destruct o; reflexivity).
    rewrite Hval in Hup.
    split; [apply parse_option_type_upper, Hup |].
    split; [apply validate_single_option_type, Hup |].
    intros v Hv. apply validate_single_ok in Hv.
    destruct Hv as (o' & p & Ho & _ & _ & _ & ->). simpl.
    rewrite (parse_option_type_upper _ o Hup) in Ho.
    unfold ret in Ho. congruence.
Qed.

End ValidatorProperties.

Lemma T001_validates :
  _validate_single_trade some_float_str some_float_str some_error_str T001
  = inr (candidate T001 CALL EURUSD).
Proof.
  apply validate_single_ok. exists CALL, EURUSD.
  split; [reflexivity |]. split; [reflexivity |].
  split; [simpl; lra |]. split; [| reflexivity].
  split; [| split].
  - apply field_errors_nil. simpl. lra.
  - simpl. lra.
  - reflexivity.
Qed.

Lemma C5_volatility_ceiling_witness :
  ((exists v,
       _validate_single_trade some_float_str some_float_str some_error_str
         (with_Vol T001 0.5) = inr v) <-> 0 < 0.5 <= 1) /\
  ((check_gt "volatility" 0 0.5 ++ check_le "volatility" 5 0.5)%list = []
   <-> 0 < 0.5 <= 5) /\
  (1 < 0.5 <= 5 ->
   _validate_single_trade some_float_str some_float_str some_error_str
     (with_Vol T001 0.5)
   = raise (ValueError
       ("Validation error: "
        ++ some_error_str
             (ModelValueError
                ("Volatility " ++ some_float_str 0.5
                 ++ " seems unreasonably high"))))).
Proof.
  apply (C5_volatility_ceiling some_float_str some_float_str some_error_str
           T001 0.5).
  exists 0.01, (candidate T001 CALL EURUSD). exact T001_validates.
Defined.

(** C6, as the specification words the message: on the option type
    INVALID of the test suite the code's message ends in the list
    ['CALL', 'PUT'], not in CALL, PUT. *)
Lemma C6_message_counterexample :
  PyStr.upper (RawOptionType T002) <> "CALL" /\
  PyStr.upper (RawOptionType T002) <> "PUT" /\
  _validate_single_trade some_float_str some_float_str some_error_str T002
  = raise (ValueError
      "Invalid OptionType 'INVALID'. Must be one of: ['CALL', 'PUT']") /\
  _validate_single_trade some_float_str some_float_str some_error_str T002
  <> raise (ValueError (spec_option_type_message (RawOptionType T002))).
Proof.
  assert (H : _validate_single_trade some_float_str some_float_str
                some_error_str T002
              = raise (ValueError
                  "Invalid OptionType 'INVALID'. Must be one of: ['CALL', 'PUT']")).
  { unfold _validate_single_trade. simpl RawOptionType.
    rewrite parse_option_type_unknown by (simpl; discriminate).
    reflexivity. }
  split; [simpl; discriminate |]. split; [simpl; discriminate |].
  split; [exact H |]. rewrite H. unfold raise. simpl. discriminate.
Qed.

(** ** Aggregator *)



(** Whether a conversion raises does not depend on the amount. *)
Lemma to_reporting_currency_raises (a b : R) (trade : PricedTrade)
    (rc : string) (e : exn) :
  _to_reporting_currency a trade rc = inl e ->
  _to_reporting_currency b trade rc = inl e.
Proof.
  unfold _to_reporting_currency, float_div, ret, raise.
  destruct (String.eqb _ (PyStr.upper rc)); [discriminate |].
  destruct (String.eqb (PricedTrade.currency_pair trade) "USDJPY");
    [| tauto].
  destruct (_ && _).
  - destruct (Req_dec_T (PricedTrade.spot trade) 0); [tauto | discriminate].
  - destruct (_ && _); [discriminate | tauto].
Qed.

Lemma aggregate_step_raises (rc : string) (totals : R * R * R)
    (trade : PricedTrade) (e : exn) :
  _to_reporting_currency (PricedTrade.pv trade) trade rc = inl e ->
  aggregate_step rc totals trade = inl e.
Proof.
  intro H. unfold aggregate_step. destruct totals as [[tp td] tv].
  rewrite H. reflexivity.
Qed.






(** ** Pricing engine *)

Lemma price_step_app (l : list PricedTrade) (t : ValidatedTrade) :
  price_step l t = (l ++ [priced_of t])%list.
Proof. reflexivity. Qed.

Lemma fold_price_step (trades : list ValidatedTrade) (l : list PricedTrade) :
  fold_left price_step trades l = (l ++ map priced_of trades)%list.
Proof.
  revert l. induction trades as [| t trades IH]; intro l; simpl.
  - now rewrite app_nil_r.
  - rewrite IH, price_step_app, <- app_assoc. reflexivity.
Qed.

Lemma price_portfolio_map (trades : list ValidatedTrade) :
  price_portfolio trades = map priced_of trades.
Proof. unfold price_portfolio. now rewrite fold_price_step. Qed.

Lemma is_validated_bounds (t : ValidatedTrade) :
  is_validated t ->
  0 < strike t /\ 0 < notional t /\ 0 < time_to_expiry t <= 10 /\
  0 < spot t /\ 0 < volatility t <= 1 /\
  -0.1 <= domestic_rate t <= 1 /\ -0.1 <= foreign_rate t <= 1.
Proof.
  intros (Hf & Hv & _). apply field_errors_nil in Hf. lra.
Qed.

Lemma is_validated_intro (t : ValidatedTrade) :
  0 < strike t -> 0 < notional t -> 0 < time_to_expiry t <= 10 ->
  0 < spot t -> 0 < volatility t <= 1 ->
  -0.1 <= domestic_rate t <= 1 -> -0.1 <= foreign_rate t <= 1 ->
  existsb (String.eqb (notional_currency t)) ["USD"; "JPY"] = true ->
  is_validated t.
Proof.
  intros. split; [apply field_errors_nil; lra |]. split; [lra | assumption].
Qed.

Lemma TEST004_validated : is_validated TEST004.
Proof. apply is_validated_intro; simpl; (lra || reflexivity). Qed.

Lemma TEST005_validated : is_validated TEST005.
Proof. apply is_validated_intro; simpl; (lra || reflexivity). Qed.


(** C1, as the specification words it: the priced trade of TEST004 has no
    field [domestic_rate] (nor [foreign_rate]), which the validated trade
    has. *)
Lemma C1_rates_counterexample :
  price_portfolio [TEST004] = [priced_of TEST004] /\
  get_field "domestic_rate" (ValidatedTrade_dump TEST004)
    = Some (VFloat 0.05) /\
  get_field "domestic_rate" (PricedTrade_dump (priced_of TEST004)) = None /\
  ~ carries_all_fields TEST004 (priced_of TEST004).
Proof.
  split; [reflexivity |]. split; [reflexivity |]. split; [reflexivity |].
  intro H. specialize (H "domestic_rate").
  assert (Hin : In "domestic_rate" (map fst (ValidatedTrade_dump TEST004))).
  { simpl. tauto. }
  specialize (H Hin). discriminate H.
Qed.

(** C1 (as the code has it): [price_portfolio] yields one priced trade per
    validated trade, in input order. The priced trade declares twelve
    fields: nine of the validated trade ([trade_id], [currency_pair] and
    [option_type] as the strings that are the enum values, [strike],
    [notional], [notional_currency], [spot], [time_to_expiry],
    [volatility]), carried unchanged, and the computed [pv], [delta] and
    [vega]. It has no [domestic_rate] and no [foreign_rate]. *)
Theorem C1_price_portfolio_fields (trades : list ValidatedTrade) :
  price_portfolio trades = map priced_of trades /\
  List.length (price_portfolio trades) = List.length trades /\
  forall (i : nat) (t : ValidatedTrade),
    nth_error trades i = Some t ->
    exists p : PricedTrade,
      nth_error (price_portfolio trades) i = Some p /\
      (forall name : string,
          In name carried_fields ->
          get_field name (PricedTrade_dump p)
          = get_field name (ValidatedTrade_dump t)) /\
      map fst (PricedTrade_dump p)
        = (carried_fields ++ ["pv"; "delta"; "vega"])%list /\
      get_field "pv" (PricedTrade_dump p) = Some (VFloat (_calculate_pv t)) /\
      get_field "delta" (PricedTrade_dump p)
        = Some (VFloat (_calculate_delta t)) /\
      get_field "vega" (PricedTrade_dump p)
        = Some (VFloat (_calculate_vega t)) /\
      get_field "domestic_rate" (PricedTrade_dump p) = None /\
      get_field "foreign_rate" (PricedTrade_dump p) = None.
Proof.
  split; [apply price_portfolio_map |].
  split; [rewrite price_portfolio_map; apply length_map |].
  intros i t Hi. exists (priced_of t). rewrite price_portfolio_map.
  split; [rewrite nth_error_map, Hi; reflexivity |].
  split.
  - intros name Hin. unfold carried_fields in Hin. simpl in Hin.
    repeat (destruct Hin as [<- | Hin]; [reflexivity |]). contradiction.
  - repeat split; reflexivity.
Qed.

(** C4: the present value that the engine computes is the
    Garman-Kohlhagen value per unit, as the specification writes it for a
    CALL and for a PUT with its [d1] and [d2], times the notional; this is
    the [pv] of every priced trade. *)
Theorem C4_garman_kohlhagen_pv (trade : ValidatedTrade) :
  _calculate_d1_d2 trade
  = (spec_d1 (spot trade) (strike trade) (time_to_expiry trade)
       (volatility trade) (domestic_rate trade) (foreign_rate trade),
     spec_d2 (spot trade) (strike trade) (time_to_expiry trade)
       (volatility trade) (domestic_rate trade) (foreign_rate trade)) /\
  _calculate_pv trade
  = spec_pv_per_unit (option_type trade) (spot trade) (strike trade)
      (time_to_expiry trade) (volatility trade) (domestic_rate trade)
      (foreign_rate trade) * notional trade /\
  forall trades : list ValidatedTrade,
    map PricedTrade.pv (price_portfolio trades)
    = map (fun t =>
             spec_pv_per_unit (option_type t) (spot t) (strike t)
               (time_to_expiry t) (volatility t) (domestic_rate t)
               (foreign_rate t) * notional t) trades.
Proof.
  assert (Hpv : forall t,
             _calculate_pv t
             = spec_pv_per_unit (option_type t) (spot t) (strike t)
                 (time_to_expiry t) (volatility t) (domestic_rate t)
                 (foreign_rate t) * notional t).
  { intro t. unfold _calculate_pv, _calculate_d1_d2, spec_pv_per_unit,
      spec_d2, spec_d1. destruct (option_type t); reflexivity. }
  split; [reflexivity |]. split; [apply Hpv |].
  intro trades. rewrite price_portfolio_map, map_map.
  apply map_ext. intro t. simpl. apply Hpv.
Qed.

Lemma calculate_d1 (t : ValidatedTrade) :
  fst (_calculate_d1_d2 t)
  = spec_d1 (spot t) (strike t) (time_to_expiry t) (volatility t)
      (domestic_rate t) (foreign_rate t).
Proof. reflexivity. Qed.

Lemma calculate_delta_eq (t : ValidatedTrade) :
  _calculate_delta t
  = match option_type t with
    | CALL =>
        exp (- foreign_rate t * time_to_expiry t)
        * norm.cdf (fst (_calculate_d1_d2 t))
    | PUT =>
        exp (- foreign_rate t * time_to_expiry t)
        * (norm.cdf (fst (_calculate_d1_d2 t)) - 1)
    end * notional t.
Proof. unfold _calculate_delta. destruct (option_type t); reflexivity. Qed.





Lemma calculate_vega_eq (t : ValidatedTrade) :
  _calculate_vega t
  = spot t * exp (- foreign_rate t * time_to_expiry t)
    * norm.pdf (fst (_calculate_d1_d2 t)) * sqrt (time_to_expiry t)
    * notional t / 100.
Proof. reflexivity. Qed.







(** ** The properties that the specification lists for testing *)

Example underlying_normalization :
  parse_currency_pair "EUR/USD" = ret EURUSD /\
  parse_currency_pair "EUR / USD" = ret EURUSD /\
  parse_currency_pair "eurusd" = ret EURUSD /\
  parse_currency_pair "EUR/CHF"
  = raise (ValueError
      "Invalid Underlying 'EUR/CHF'. Must be one of: EUR/USD, GBP/USD, or USD/JPY").
Proof. repeat split. Qed.

Example option_type_casings :
  parse_option_type "call" = ret CALL /\
  parse_option_type "Call" = ret CALL /\
  parse_option_type "CALL" = ret CALL /\
  parse_option_type "put" = ret PUT /\
  parse_option_type "Put" = ret PUT /\
  parse_option_type "PUT" = ret PUT.
Proof. repeat split. Qed.

Lemma T005_rejected :
  _validate_single_trade some_float_str some_float_str some_error_str T005
  = raise (ValueError
      ("Validation error: "
       ++ some_error_str
            (FieldErrors [mkFieldError "strike" greater_than 0 (-1.1)]))).
Proof.
  unfold _validate_single_trade, bind. simpl. case_R_dec.
  unfold ValidatedTrade_init, field_errors, check_gt, check_ge, check_le.
  simpl. case_R_dec. reflexivity.
Qed.

Example one_valid_one_invalid :
  let result :=
    validate_trades some_float_str some_float_str some_error_str
      [T001; T005] in
  valid_trades result = [candidate T001 CALL EURUSD] /\
  errors result = ["Trade T_INVALID: Validation error: <error>"] /\
  is_valid result = false.
Proof.
  destruct (validate_trades_flat_map some_float_str some_float_str
              some_error_str [T001; T005]) as [Hv He].
  cbv zeta. unfold is_valid. rewrite Hv, He. simpl.
  rewrite T001_validates, T005_rejected. repeat split.
Qed.

Example aggregate_empty (today : date) :
  aggregate_portfolio today [] None "USD"
  = ret {| total_trades := 0;
           total_pv := 0;
           total_delta := 0;
           total_vega := 0;
           valuation_date := today;
           reporting_currency := "USD" |}.
Proof. reflexivity. Qed.

Example aggregate_two_usd (today : date) :
  exists summary,
    aggregate_portfolio today [priced_T1; priced_T2] None "USD" = ret summary /\
    total_trades summary = 2%nat /\
    total_pv summary = 20000 /\
    total_delta summary = 250000 /\
    total_vega summary = 4500.
Proof.
  eexists. split; [reflexivity |]. simpl. repeat split; lra.
Qed.

Example convert_jpy_to_usd :
  _to_reporting_currency 1000000 priced_JPY "USD" = ret (1000000 / 110).
Proof.
  unfold _to_reporting_currency, float_div. simpl. case_R_dec. reflexivity.
Qed.

Example convert_eur_notional :
  _to_reporting_currency 25000 priced_EUR "USD"
  = raise (ValueError "Unsupported conversion EUR->USD for EURUSD") /\
  exists e,
    aggregate_portfolio 0%nat [priced_T1; priced_EUR] None "USD" = inl e.
Proof.
  split; [reflexivity |]. eexists. reflexivity.
Qed.

(** * Further properties *)

(** ** The engine's sensitivities are the derivatives of its price *)

Module Greeks.
Import CalculusFacts norm_facts.

Section Model.

Variables K T sigma r_d r_f : R.
Hypothesis HK : 0 < K.
Hypothesis HT : 0 < T.

Lemma vol_sqrt_pos (s : R) : 0 < s -> 0 < s * sqrt T.
Proof. intro Hs. apply Rmult_lt_0_compat; [exact Hs | apply sqrt_lt_R0, HT]. Qed.

(** The two discounted legs weigh the density alike. *)
Lemma pdf_identity (S s : R) :
  0 < S -> 0 < s ->
  S * exp (- r_f * T) * norm.pdf (spec_d1 S K T s r_d r_f)
  = K * exp (- r_d * T) * norm.pdf (spec_d2 S K T s r_d r_f).
Proof.
  intros HS Hs. pose proof (vol_sqrt_pos s Hs) as Hv.
  assert (Hsq : 0 < sqrt T) by (apply sqrt_lt_R0, HT).
  assert (HTs : sqrt T * sqrt T = T) by (apply sqrt_sqrt; lra).
  unfold spec_d2. set (d1 := spec_d1 S K T s r_d r_f).
  assert (Hd1 : d1 * (s * sqrt T)
                = ln (S / K) + (r_d - r_f + 0.5 * s ^ 2) * T).
  { unfold d1, spec_d1. field. split; lra. }
  clearbody d1. unfold norm.pdf.
  replace (- (d1 - s * sqrt T) ^ 2 / 2)
    with (- d1 ^ 2 / 2 + (ln (S / K) + (r_d - r_f) * T)).
  2:{ replace (- (d1 - s * sqrt T) ^ 2 / 2)
        with (- d1 ^ 2 / 2 + d1 * (s * sqrt T)
              - s ^ 2 * (sqrt T * sqrt T) / 2) by field.
      rewrite Hd1, HTs. lra. }
  rewrite !exp_plus, exp_ln by (apply Rdiv_lt_0_compat; lra).
  replace (- r_f * T) with (- (r_f * T)) by ring.
  replace (- r_d * T) with (- (r_d * T)) by ring.
  replace ((r_d - r_f) * T) with (r_d * T + - (r_f * T)) by ring.
  rewrite exp_plus, !exp_Ropp.
  pose proof (exp_pos (r_d * T)). pose proof (exp_pos (r_f * T)).
  pose proof sqrt_two_pi_pos.
  field. repeat split; lra.
Qed.

Lemma d1_derivable_spot (S : R) :
  0 < S -> 0 < sigma ->
  derivable_pt_lim (fun S => spec_d1 S K T sigma r_d r_f) S
    (/ (S * (sigma * sqrt T))).
Proof.
  intros HS Hs. pose proof (vol_sqrt_pos sigma Hs) as Hv.
  assert (Hsq : 0 < sqrt T) by (apply sqrt_lt_R0, HT).
  unfold spec_d1.
  apply derivable_pt_lim_eq with ((/ (S / K) * (1 * / K) + 0) / (sigma * sqrt T)).
  { field. repeat split; lra. }
  apply (derivable_pt_lim_div_scal
           (fun S => ln (S / K) + (r_d - r_f + 0.5 * sigma ^ 2) * T)).
  apply (derivable_pt_lim_plus (fun S => ln (S / K))
           (fun _ => (r_d - r_f + 0.5 * sigma ^ 2) * T)).
  - apply (derivable_pt_lim_comp (fun S => S / K) ln).
    + apply (derivable_pt_lim_scal_right id), derivable_pt_lim_id.
    + apply derivable_pt_lim_ln. apply Rdiv_lt_0_compat; lra.
  - apply derivable_pt_lim_const.
Qed.

Lemma d2_derivable_spot (S : R) :
  0 < S -> 0 < sigma ->
  derivable_pt_lim (fun S => spec_d2 S K T sigma r_d r_f) S
    (/ (S * (sigma * sqrt T))).
Proof.
  intros HS Hs. unfold spec_d2.
  apply derivable_pt_lim_eq with (/ (S * (sigma * sqrt T)) - 0); [ring |].
  apply (derivable_pt_lim_minus (fun S => spec_d1 S K T sigma r_d r_f)
           (fun _ => sigma * sqrt T)).
  - apply d1_derivable_spot; assumption.
  - apply derivable_pt_lim_const.
Qed.

(** The value of a call per unit, and its derivative in the spot. *)
Lemma call_derivable_spot (S : R) :
  0 < S -> 0 < sigma ->
  derivable_pt_lim (fun S => spec_pv_per_unit CALL S K T sigma r_d r_f) S
    (exp (- r_f * T) * norm.cdf (spec_d1 S K T sigma r_d r_f)).
Proof.
  intros HS Hs. pose proof (vol_sqrt_pos sigma Hs) as Hv.
  unfold spec_pv_per_unit.
  set (D := / (S * (sigma * sqrt T))).
  apply derivable_pt_lim_eq
    with ((exp (- r_f * T) * 1 * norm.cdf (spec_d1 S K T sigma r_d r_f)
           + S * exp (- r_f * T)
             * (norm.pdf (spec_d1 S K T sigma r_d r_f) * D))
          - K * exp (- r_d * T)
            * (norm.pdf (spec_d2 S K T sigma r_d r_f) * D)).
  { pose proof (pdf_identity S sigma HS Hs) as Hid. 
    replace (K * exp (- r_d * T)
             * (norm.pdf (spec_d2 S K T sigma r_d r_f) * D))
      with (K * exp (- r_d * T) * norm.pdf (spec_d2 S K T sigma r_d r_f) * D)
      by ring.
    rewrite <- Hid. ring. }
  apply (derivable_pt_lim_minus
           (fun S => S * exp (- r_f * T)
                     * norm.cdf (spec_d1 S K T sigma r_d r_f))
           (fun S => K * exp (- r_d * T)
                     * norm.cdf (spec_d2 S K T sigma r_d r_f))).
  - apply (derivable_pt_lim_mult (fun S => S * exp (- r_f * T))
             (fun S => norm.cdf (spec_d1 S K T sigma r_d r_f))).
    + apply derivable_pt_lim_eq with (1 * exp (- r_f * T)); [ring |].
      apply (derivable_pt_lim_scal_right id), derivable_pt_lim_id.
    + apply (derivable_pt_lim_comp (fun S => spec_d1 S K T sigma r_d r_f)
               norm.cdf).
      * apply d1_derivable_spot; assumption.
      * apply cdf_derivable_pt_lim.
  - apply (derivable_pt_lim_scal
             (fun S => norm.cdf (spec_d2 S K T sigma r_d r_f))).
    apply (derivable_pt_lim_comp (fun S => spec_d2 S K T sigma r_d r_f)
             norm.cdf).
    + apply d2_derivable_spot; assumption.
    + apply cdf_derivable_pt_lim.
Qed.

(** Put-call parity per unit. *)
Lemma parity_per_unit (S s : R) :
  spec_pv_per_unit PUT S K T s r_d r_f
  = spec_pv_per_unit CALL S K T s r_d r_f
    - (S * exp (- r_f * T) - K * exp (- r_d * T)).
Proof. unfold spec_pv_per_unit. rewrite !cdf_opp. ring. Qed.

Lemma put_derivable_spot (S : R) :
  0 < S -> 0 < sigma ->
  derivable_pt_lim (fun S => spec_pv_per_unit PUT S K T sigma r_d r_f) S
    (exp (- r_f * T) * (norm.cdf (spec_d1 S K T sigma r_d r_f) - 1)).
Proof.
  intros HS Hs.
  apply (derivable_pt_lim_ext
           (fun S => spec_pv_per_unit CALL S K T sigma r_d r_f
                     - (S * exp (- r_f * T) - K * exp (- r_d * T)))).
  { intro y. symmetry. apply parity_per_unit. }
  apply derivable_pt_lim_eq
    with (exp (- r_f * T) * norm.cdf (spec_d1 S K T sigma r_d r_f)
          - (1 * exp (- r_f * T) - 0)); [ring |].
  apply (derivable_pt_lim_minus
           (fun S => spec_pv_per_unit CALL S K T sigma r_d r_f)
           (fun S => S * exp (- r_f * T) - K * exp (- r_d * T))).
  - apply call_derivable_spot; assumption.
  - apply (derivable_pt_lim_minus (fun S => S * exp (- r_f * T))
             (fun _ => K * exp (- r_d * T))).
    + apply (derivable_pt_lim_scal_right id), derivable_pt_lim_id.
    + apply derivable_pt_lim_const.
Qed.

Lemma d1_derivable_vol (S s : R) :
  0 < S -> 0 < s ->
  exists D, derivable_pt_lim (fun s => spec_d1 S K T s r_d r_f) s D.
Proof.
  intros HS Hs. pose proof (vol_sqrt_pos s Hs) as Hv.
  eexists. unfold spec_d1.
  apply (derivable_pt_lim_div
           (fun s => ln (S / K) + (r_d - r_f + 0.5 * s ^ 2) * T)
           (fun s => s * sqrt T)).
  - apply (derivable_pt_lim_plus (fun _ => ln (S / K))
             (fun s => (r_d - r_f + 0.5 * s ^ 2) * T)).
    + apply derivable_pt_lim_const.
    + apply (derivable_pt_lim_scal_right
               (fun s => r_d - r_f + 0.5 * s ^ 2)).
      apply (derivable_pt_lim_plus (fun _ => r_d - r_f)
               (fun s => 0.5 * s ^ 2)).
      * apply derivable_pt_lim_const.
      * apply (derivable_pt_lim_scal (fun s => s ^ 2)).
        apply derivable_pt_lim_pow.
  - apply (derivable_pt_lim_scal_right id), derivable_pt_lim_id.
  - lra.
Qed.

(** The derivative of the value of a call per unit in the volatility. *)
Lemma call_derivable_vol (S s : R) :
  0 < S -> 0 < s ->
  derivable_pt_lim (fun s => spec_pv_per_unit CALL S K T s r_d r_f) s
    (S * exp (- r_f * T) * norm.pdf (spec_d1 S K T s r_d r_f) * sqrt T).
Proof.
  intros HS Hs. destruct (d1_derivable_vol S s HS Hs) as [D HD].
  unfold spec_pv_per_unit.
  apply derivable_pt_lim_eq
    with (S * exp (- r_f * T) * (norm.pdf (spec_d1 S K T s r_d r_f) * D)
          - K * exp (- r_d * T)
            * (norm.pdf (spec_d2 S K T s r_d r_f) * (D - 1 * sqrt T))).
  { pose proof (pdf_identity S s HS Hs) as Hid.
    replace (K * exp (- r_d * T)
             * (norm.pdf (spec_d2 S K T s r_d r_f) * (D - 1 * sqrt T)))
      with (K * exp (- r_d * T) * norm.pdf (spec_d2 S K T s r_d r_f)
            * (D - sqrt T)) by ring.
    rewrite <- Hid. ring. }
  apply (derivable_pt_lim_minus
           (fun s => S * exp (- r_f * T)
                     * norm.cdf (spec_d1 S K T s r_d r_f))
           (fun s => K * exp (- r_d * T)
                     * norm.cdf (spec_d2 S K T s r_d r_f))).
  - apply (derivable_pt_lim_scal
             (fun s => norm.cdf (spec_d1 S K T s r_d r_f))).
    apply (derivable_pt_lim_comp (fun s => spec_d1 S K T s r_d r_f) norm.cdf).
    + exact HD.
    + apply cdf_derivable_pt_lim.
  - apply (derivable_pt_lim_scal
             (fun s => norm.cdf (spec_d2 S K T s r_d r_f))).
    apply (derivable_pt_lim_comp (fun s => spec_d2 S K T s r_d r_f) norm.cdf).
    + unfold spec_d2.
      apply (derivable_pt_lim_minus (fun s => spec_d1 S K T s r_d r_f)
               (fun s => s * sqrt T)).
      * exact HD.
      * apply (derivable_pt_lim_scal_right id), derivable_pt_lim_id.
    + apply cdf_derivable_pt_lim.
Qed.

Lemma put_derivable_vol (S s : R) :
  0 < S -> 0 < s ->
  derivable_pt_lim (fun s => spec_pv_per_unit PUT S K T s r_d r_f) s
    (S * exp (- r_f * T) * norm.pdf (spec_d1 S K T s r_d r_f) * sqrt T).
Proof.
  intros HS Hs.
  apply (derivable_pt_lim_ext
           (fun s => spec_pv_per_unit CALL S K T s r_d r_f
                     - (S * exp (- r_f * T) - K * exp (- r_d * T)))).
  { intro y. symmetry. apply parity_per_unit. }
  apply derivable_pt_lim_eq
    with (S * exp (- r_f * T) * norm.pdf (spec_d1 S K T s r_d r_f) * sqrt T
          - 0); [ring |].
  apply (derivable_pt_lim_minus
           (fun s => spec_pv_per_unit CALL S K T s r_d r_f)
           (fun _ => S * exp (- r_f * T) - K * exp (- r_d * T))).
  - apply call_derivable_vol; assumption.
  - apply derivable_pt_lim_const.
Qed.

End Model.

(** *** The ratio of the distribution function to the density *)

Lemma pdf_kernel (x : R) : norm.pdf x = norm.kernel x / sqrt (2 * PI).
Proof. reflexivity. Qed.

Lemma pdf_even (x : R) : norm.pdf (- x) = norm.pdf x.
Proof. rewrite !pdf_kernel, kernel_even. reflexivity. Qed.

Lemma kernel_derivable_pt_lim (x : R) :
  derivable_pt_lim norm.kernel x (- x * norm.kernel x).
Proof.
  apply (derivable_pt_lim_ext (fun x => exp (- x ^ 2 * 1 / 2))).
  { intro y. unfold norm.kernel. f_equal. field. }
  apply derivable_pt_lim_eq with (- x * 1 * exp (- x ^ 2 * 1 / 2)).
  { unfold norm.kernel. replace (- x ^ 2 * 1 / 2) with (- x ^ 2 / 2) by field.
    ring. }
  apply gauss_exp_derivable_pt_lim.
Qed.

Lemma pdf_derivable_pt_lim (x : R) :
  derivable_pt_lim norm.pdf x (- x * norm.pdf x).
Proof.
  apply derivable_pt_lim_eq with (- x * norm.kernel x / sqrt (2 * PI)).
  { rewrite pdf_kernel. unfold Rdiv. ring. }
  apply (derivable_pt_lim_div_scal norm.kernel), kernel_derivable_pt_lim.
Qed.

(** [mills x] is the numerator of the derivative of the ratio. *)
Definition mills (x : R) : R := norm.pdf x + x * norm.cdf x.

Lemma mills_derivable_pt_lim (x : R) :
  derivable_pt_lim mills x (norm.cdf x).
Proof.
  unfold mills.
  apply derivable_pt_lim_eq
    with (- x * norm.pdf x + (1 * norm.cdf x + x * norm.pdf x)); [ring |].
  apply (derivable_pt_lim_plus norm.pdf (fun x => x * norm.cdf x)).
  - apply pdf_derivable_pt_lim.
  - apply (derivable_pt_lim_mult id norm.cdf).
    + apply derivable_pt_lim_id.
    + apply cdf_derivable_pt_lim.
Qed.

(** The upper tail of the distribution is below the kernel. *)
Lemma upper_tail_bound (y : R) :
  0 <= y -> 1 - norm.cdf y <= norm.kernel y.
Proof.
  intro Hy.
  assert (Hp : 0 < sqrt (PI / 2)) by (apply sqrt_lt_R0, half_pi_pos).
  pose proof sqrt_half_pi_sqr as Hs. set (L := sqrt (PI / 2)) in *.
  pose proof (mass_sqr_aux y) as Hsq. pose proof (aux_le_kernel y) as Hak.
  pose proof (mass_lt_limit y) as Hlt. fold L in Hlt.
  assert (Hm : 0 <= norm.mass y).
  { destruct Hy as [Hy | <-]; [| rewrite mass_0; lra].
    left. rewrite <- mass_0. apply mass_increasing, Hy. }
  assert (HL : 1 < L * L).
  { rewrite Hs. pose proof PI_RGT_0. pose proof PI2_3_2. unfold PI2 in *.
    lra. }
  pose proof (kernel_pos y) as Hk.
  unfold norm.cdf. rewrite sqrt_two_pi. fold L.
  assert (Hq : norm.mass y / (2 * L) = (norm.mass y * L) / (2 * (L * L))).
  { field. lra. }
  rewrite Hq.
  assert (HLL : 0 < 2 * (L * L)) by nra.
  apply Rmult_le_reg_r with (2 * (L * L)); [exact HLL |].
  replace ((1 - (1 / 2 + norm.mass y * L / (2 * (L * L)))) * (2 * (L * L)))
    with (L * L - norm.mass y * L) by (field; nra).
  nra.
Qed.

Lemma mills_pos (x : R) : 0 < mills x.
Proof.
  destruct (Rlt_dec 0 (mills x)) as [H | H]; [exact H | exfalso].
  assert (Hinc : forall a b, a < b -> mills a < mills b).
  { intros a b. apply (pos_derivative_lt mills norm.cdf).
    - exact mills_derivable_pt_lim.
    - exact cdf_pos. }
  pose proof (Hinc (x - 1) x ltac:(lra)) as H1.
  set (delta := - mills (x - 1)).
  assert (Hd : 0 < delta) by (unfold delta; lra).
  set (y := Rmax (Rmax 1 (1 - x)) (2 / delta + 1)).
  assert (Hy1 : 1 <= y).
  { unfold y. eapply Rle_trans; [| apply Rmax_l]. apply Rmax_l. }
  assert (Hy2 : - y <= x - 1).
  { assert (1 - x <= y); [| lra].
    unfold y. eapply Rle_trans; [| apply Rmax_l]. apply Rmax_r. }
  assert (Hy3 : 2 / delta < y).
  { assert (2 / delta + 1 <= y) by (unfold y; apply Rmax_r). lra. }
  assert (Hm : mills (- y) <= - delta).
  { destruct Hy2 as [Hy2 | Hy2].
    - left. apply Hinc in Hy2. unfold delta. lra.
    - rewrite Hy2. unfold delta. lra. }
  unfold mills in Hm. rewrite pdf_even, cdf_opp in Hm.
  pose proof (pdf_pos y) as Hpdf.
  pose proof (upper_tail_bound y ltac:(lra)) as Htail.
  assert (Hky : norm.kernel y * y * y <= 2).
  { unfold norm.kernel. replace (- y ^ 2 / 2) with (- (y ^ 2 / 2)) by field.
    rewrite exp_Ropp.
    pose proof (exp_ineq1_le (y ^ 2 / 2)) as He.
    assert (Hpos : 0 < exp (y ^ 2 / 2)) by apply exp_pos.
    apply Rmult_le_reg_l with (exp (y ^ 2 / 2)); [exact Hpos |].
    rewrite <- !Rmult_assoc, Rinv_r, Rmult_1_l by lra. nra. }
  assert (Hyd : 2 < y * delta).
  { apply Rmult_lt_compat_r with (r := delta) in Hy3; [| exact Hd].
    unfold Rdiv in Hy3. rewrite Rmult_assoc, Rinv_l, Rmult_1_r in Hy3 by lra.
    exact Hy3. }
  pose proof (kernel_pos y) as Hk.
  assert (Hfin : y * (1 - norm.cdf y) * y < delta * y).
  { apply Rle_lt_trans with (norm.kernel y * y * y); [| nra].
    replace (y * (1 - norm.cdf y) * y) with ((1 - norm.cdf y) * (y * y))
      by ring.
    replace (norm.kernel y * y * y) with (norm.kernel y * (y * y)) by ring.
    apply Rmult_le_compat_r; [nra | exact Htail]. }
  apply Rmult_lt_reg_r in Hfin; [| lra].
  lra.
Qed.

(** The ratio increases. *)
Lemma cdf_pdf_ratio_increasing (a b : R) :
  a < b -> norm.cdf a * norm.pdf b < norm.cdf b * norm.pdf a.
Proof.
  intro Hab.
  assert (HD : forall x,
            derivable_pt_lim (fun x => norm.cdf x / norm.pdf x) x
              (mills x / norm.pdf x)).
  { intro x. pose proof (pdf_pos x) as Hp.
    apply derivable_pt_lim_eq
      with ((norm.pdf x * norm.pdf x - - x * norm.pdf x * norm.cdf x)
            / Rsqr (norm.pdf x)).
    { unfold mills, Rsqr. field. lra. }
    apply (derivable_pt_lim_div norm.cdf norm.pdf).
    - apply cdf_derivable_pt_lim.
    - apply pdf_derivable_pt_lim.
    - lra. }
  assert (Hpos : forall x, 0 < mills x / norm.pdf x).
  { intro x. apply Rdiv_lt_0_compat; [apply mills_pos | apply pdf_pos]. }
  pose proof (pos_derivative_lt _ _ a b HD Hpos Hab) as H. simpl in H.
  pose proof (pdf_pos a) as Ha. pose proof (pdf_pos b) as Hb.
  apply Rmult_lt_compat_r with (r := norm.pdf a * norm.pdf b) in H;
    [| apply Rmult_lt_0_compat; assumption].
  replace (norm.cdf a / norm.pdf a * (norm.pdf a * norm.pdf b))
    with (norm.cdf a * norm.pdf b) in H by (field; lra).
  replace (norm.cdf b / norm.pdf b * (norm.pdf a * norm.pdf b))
    with (norm.cdf b * norm.pdf a) in H by (field; lra).
  exact H.
Qed.

(** *** The value per unit is positive *)

Lemma call_per_unit_pos (S K T s r_d r_f : R) :
  0 < S -> 0 < K -> 0 < T -> 0 < s ->
  0 < spec_pv_per_unit CALL S K T s r_d r_f.
Proof.
  intros HS HK HT Hs.
  pose proof (pdf_identity K T r_d r_f HK HT S s HS Hs) as Hid.
  pose proof (vol_sqrt_pos T HT s Hs) as Hv.
  assert (Hlt : spec_d2 S K T s r_d r_f < spec_d1 S K T s r_d r_f)
    by (unfold spec_d2; lra).
  pose proof (cdf_pdf_ratio_increasing _ _ Hlt) as Hr.
  unfold spec_pv_per_unit.
  set (d1 := spec_d1 S K T s r_d r_f) in *.
  set (d2 := spec_d2 S K T s r_d r_f) in *.
  pose proof (pdf_pos d1) as Hp1.
  pose proof (exp_pos (- r_d * T)) as He.
  apply Rmult_lt_reg_r with (norm.pdf d1); [exact Hp1 |].
  rewrite Rmult_0_l.
  replace ((S * exp (- r_f * T) * norm.cdf d1
            - K * exp (- r_d * T) * norm.cdf d2) * norm.pdf d1)
    with (S * exp (- r_f * T) * norm.pdf d1 * norm.cdf d1
          - K * exp (- r_d * T) * (norm.cdf d2 * norm.pdf d1)) by ring.
  rewrite Hid.
  assert (0 < K * exp (- r_d * T)) by (apply Rmult_lt_0_compat; lra).
  nra.
Qed.

Lemma put_per_unit_pos (S K T s r_d r_f : R) :
  0 < S -> 0 < K -> 0 < T -> 0 < s ->
  0 < spec_pv_per_unit PUT S K T s r_d r_f.
Proof.
  intros HS HK HT Hs.
  pose proof (pdf_identity K T r_d r_f HK HT S s HS Hs) as Hid.
  pose proof (vol_sqrt_pos T HT s Hs) as Hv.
  assert (Hlt : - spec_d1 S K T s r_d r_f < - spec_d2 S K T s r_d r_f)
    by (unfold spec_d2; lra).
  pose proof (cdf_pdf_ratio_increasing _ _ Hlt) as Hr.
  rewrite !pdf_even in Hr.
  unfold spec_pv_per_unit.
  set (d1 := spec_d1 S K T s r_d r_f) in *.
  set (d2 := spec_d2 S K T s r_d r_f) in *.
  pose proof (pdf_pos d2) as Hp2.
  pose proof (exp_pos (- r_f * T)) as He.
  apply Rmult_lt_reg_r with (norm.pdf d2); [exact Hp2 |].
  rewrite Rmult_0_l.
  replace ((K * exp (- r_d * T) * norm.cdf (- d2)
            - S * exp (- r_f * T) * norm.cdf (- d1)) * norm.pdf d2)
    with (K * exp (- r_d * T) * norm.pdf d2 * norm.cdf (- d2)
          - S * exp (- r_f * T) * (norm.cdf (- d1) * norm.pdf d2)) by ring.
  rewrite <- Hid.
  assert (0 < S * exp (- r_f * T)) by (apply Rmult_lt_0_compat; lra).
  nra.
Qed.

End Greeks.

Lemma calculate_pv_per_unit (t : ValidatedTrade) :
  _calculate_pv t
  = spec_pv_per_unit (option_type t) (spot t) (strike t) (time_to_expiry t)
      (volatility t) (domestic_rate t) (foreign_rate t) * notional t.
Proof.
  unfold _calculate_pv, _calculate_d1_d2, spec_pv_per_unit, spec_d2, spec_d1.
  destruct (option_type t); reflexivity.
Qed.

(** X1: the delta that the engine reports is the derivative of its present
    value in the spot, at the spot of the trade. *)
Theorem delta_is_derivative_in_spot (t : ValidatedTrade) :
  is_validated t ->
  derivable_pt_lim (fun S => _calculate_pv (with_spot t S)) (spot t)
    (_calculate_delta t).
Proof.
  intro Hv. apply is_validated_bounds in Hv.
  destruct Hv as (HK & HN & HT & HS & Hvol & _).
  apply (CalculusFacts.derivable_pt_lim_ext
           (fun S => spec_pv_per_unit (option_type t) S (strike t)
                       (time_to_expiry t) (volatility t) (domestic_rate t)
                       (foreign_rate t) * notional t)).
  { intro S. rewrite calculate_pv_per_unit. reflexivity. }
  rewrite calculate_delta_eq, calculate_d1.
  apply derivable_pt_lim_scal_right.
  destruct (option_type t).
  - apply Greeks.call_derivable_spot; lra.
  - apply Greeks.put_derivable_spot; lra.
Qed.

Lemma delta_is_derivative_in_spot_witness :
  derivable_pt_lim (fun S => _calculate_pv (with_spot TEST004 S))
    (spot TEST004) (_calculate_delta TEST004).
Proof.
  apply (delta_is_derivative_in_spot TEST004). exact TEST004_validated.
Defined.

(** X2: the vega that the engine reports, which is scaled to a move of one
    percentage point, is a hundredth of the derivative of its present value
    in the volatility. *)
Theorem vega_is_derivative_in_volatility (t : ValidatedTrade) :
  is_validated t ->
  derivable_pt_lim (fun sigma => _calculate_pv (with_volatility t sigma))
    (volatility t) (100 * _calculate_vega t).
Proof.
  intro Hv. apply is_validated_bounds in Hv.
  destruct Hv as (HK & HN & HT & HS & Hvol & _).
  apply (CalculusFacts.derivable_pt_lim_ext
           (fun sigma => spec_pv_per_unit (option_type t) (spot t) (strike t)
                           (time_to_expiry t) sigma (domestic_rate t)
                           (foreign_rate t) * notional t)).
  { intro s. rewrite calculate_pv_per_unit. reflexivity. }
  apply CalculusFacts.derivable_pt_lim_eq
    with (spot t * exp (- foreign_rate t * time_to_expiry t)
          * norm.pdf (spec_d1 (spot t) (strike t) (time_to_expiry t)
                        (volatility t) (domestic_rate t) (foreign_rate t))
          * sqrt (time_to_expiry t) * notional t).
  { rewrite calculate_vega_eq, calculate_d1. field. }
  apply derivable_pt_lim_scal_right.
  destruct (option_type t).
  - apply Greeks.call_derivable_vol; lra.
  - apply Greeks.put_derivable_vol; lra.
Qed.

Lemma vega_is_derivative_in_volatility_witness :
  derivable_pt_lim
    (fun sigma => _calculate_pv (with_volatility TEST004 sigma))
    (volatility TEST004) (100 * _calculate_vega TEST004).
Proof.
  apply (vega_is_derivative_in_volatility TEST004). exact TEST004_validated.
Defined.

(** X3: the present value of a validated trade is positive and within the
    bounds that exclude arbitrage: a CALL is worth more than the notional
    times [S*exp(-r_f*T) - K*exp(-r_d*T)] and less than the notional times
    [S*exp(-r_f*T)]; a PUT more than the notional times
    [K*exp(-r_d*T) - S*exp(-r_f*T)] and less than the notional times
    [K*exp(-r_d*T)]. *)
Theorem pv_no_arbitrage_bounds (t : ValidatedTrade) :
  is_validated t ->
  0 < _calculate_pv t /\
  (option_type t = CALL ->
   notional t
   * (spot t * exp (- foreign_rate t * time_to_expiry t)
      - strike t * exp (- domestic_rate t * time_to_expiry t))
   < _calculate_pv t
   < notional t * (spot t * exp (- foreign_rate t * time_to_expiry t))) /\
  (option_type t = PUT ->
   notional t
   * (strike t * exp (- domestic_rate t * time_to_expiry t)
      - spot t * exp (- foreign_rate t * time_to_expiry t))
   < _calculate_pv t
   < notional t * (strike t * exp (- domestic_rate t * time_to_expiry t))).
Proof.
  intro Hv. apply is_validated_bounds in Hv.
  destruct Hv as (HK & HN & HT & HS & Hvol & _).
  rewrite calculate_pv_per_unit.
  pose proof (Greeks.call_per_unit_pos (spot t) (strike t) (time_to_expiry t)
                (volatility t) (domestic_rate t) (foreign_rate t)
                HS HK ltac:(lra) ltac:(lra)) as Hc.
  pose proof (Greeks.put_per_unit_pos (spot t) (strike t) (time_to_expiry t)
                (volatility t) (domestic_rate t) (foreign_rate t)
                HS HK ltac:(lra) ltac:(lra)) as Hp.
  pose proof (Greeks.parity_per_unit (strike t) (time_to_expiry t)
                (domestic_rate t) (foreign_rate t) (spot t) (volatility t))
    as Hpar.
  set (call := spec_pv_per_unit CALL (spot t) (strike t) (time_to_expiry t)
                 (volatility t) (domestic_rate t) (foreign_rate t)) in *.
  set (put := spec_pv_per_unit PUT (spot t) (strike t) (time_to_expiry t)
                (volatility t) (domestic_rate t) (foreign_rate t)) in *.
  assert (Hcu : call < spot t * exp (- foreign_rate t * time_to_expiry t)).
  { unfold call, spec_pv_per_unit.
    set (d1 := spec_d1 _ _ _ _ _ _). set (d2 := spec_d2 _ _ _ _ _ _).
    pose proof (norm_facts.cdf_lt_1 d1). pose proof (norm_facts.cdf_pos d2).
    pose proof (exp_pos (- foreign_rate t * time_to_expiry t)).
    pose proof (exp_pos (- domestic_rate t * time_to_expiry t)).
    assert (0 < spot t * exp (- foreign_rate t * time_to_expiry t))
      by (apply Rmult_lt_0_compat; lra).
    assert (0 < strike t * exp (- domestic_rate t * time_to_expiry t))
      by (apply Rmult_lt_0_compat; lra).
    nra. }
  set (A1 := spot t * exp (- foreign_rate t * time_to_expiry t)) in *.
  set (A2 := strike t * exp (- domestic_rate t * time_to_expiry t)) in *.
  split; [destruct (option_type t); fold call; fold put;
          apply Rmult_lt_0_compat; assumption |].
  split; intros ->; fold call; fold put; split; nra.
Qed.

Lemma pv_no_arbitrage_bounds_witness :
  0 < _calculate_pv TEST004 /\
  (option_type TEST004 = CALL ->
   notional TEST004
   * (spot TEST004 * exp (- foreign_rate TEST004 * time_to_expiry TEST004)
      - strike TEST004
        * exp (- domestic_rate TEST004 * time_to_expiry TEST004))
   < _calculate_pv TEST004
   < notional TEST004
     * (spot TEST004
        * exp (- foreign_rate TEST004 * time_to_expiry TEST004))) /\
  (option_type TEST004 = PUT ->
   notional TEST004
   * (strike TEST004 * exp (- domestic_rate TEST004 * time_to_expiry TEST004)
      - spot TEST004 * exp (- foreign_rate TEST004 * time_to_expiry TEST004))
   < _calculate_pv TEST004
   < notional TEST004
     * (strike TEST004
        * exp (- domestic_rate TEST004 * time_to_expiry TEST004))).
Proof.
  apply (pv_no_arbitrage_bounds TEST004). exact TEST004_validated.
Defined.

(** ** The price moves with the volatility and with the spot *)

Lemma per_unit_increasing_in_volatility (o : OptionType)
    (S K T r_d r_f s1 s2 : R) :
  0 < S -> 0 < K -> 0 < T -> 0 < s1 -> s1 < s2 ->
  spec_pv_per_unit o S K T s1 r_d r_f < spec_pv_per_unit o S K T s2 r_d r_f.
Proof.
  intros HS HK HT Hs1 Hs12.
  destruct (MVT_cor2 (fun s => spec_pv_per_unit o S K T s r_d r_f)
              (fun s => S * exp (- r_f * T)
                        * norm.pdf (spec_d1 S K T s r_d r_f) * sqrt T)
              s1 s2 Hs12) as (c & Hc & Hin).
  { intros c Hc. destruct o.
    - apply Greeks.call_derivable_vol; lra.
    - apply Greeks.put_derivable_vol; lra. }
  assert (0 < S * exp (- r_f * T) * norm.pdf (spec_d1 S K T c r_d r_f)
              * sqrt T).
  { pose proof (exp_pos (- r_f * T)).
    pose proof (norm_facts.pdf_pos (spec_d1 S K T c r_d r_f)).
    assert (0 < sqrt T) by (apply sqrt_lt_R0; lra).
    apply Rmult_lt_0_compat; [| assumption].
    apply Rmult_lt_0_compat; [| assumption].
    apply Rmult_lt_0_compat; assumption. }
  cbv beta in Hc. nra.
Qed.

Lemma call_per_unit_increasing_in_spot (K T sigma r_d r_f S1 S2 : R) :
  0 < K -> 0 < T -> 0 < sigma -> 0 < S1 -> S1 < S2 ->
  spec_pv_per_unit CALL S1 K T sigma r_d r_f
  < spec_pv_per_unit CALL S2 K T sigma r_d r_f.
Proof.
  intros HK HT Hs HS1 HS12.
  destruct (MVT_cor2 (fun S => spec_pv_per_unit CALL S K T sigma r_d r_f)
              (fun S => exp (- r_f * T)
                        * norm.cdf (spec_d1 S K T sigma r_d r_f))
              S1 S2 HS12) as (c & Hc & Hin).
  { intros c Hc. apply Greeks.call_derivable_spot; lra. }
  assert (0 < exp (- r_f * T) * norm.cdf (spec_d1 c K T sigma r_d r_f)).
  { apply Rmult_lt_0_compat;
      [apply exp_pos | apply norm_facts.cdf_pos]. }
  cbv beta in Hc. nra.
Qed.

Lemma put_per_unit_decreasing_in_spot (K T sigma r_d r_f S1 S2 : R) :
  0 < K -> 0 < T -> 0 < sigma -> 0 < S1 -> S1 < S2 ->
  spec_pv_per_unit PUT S2 K T sigma r_d r_f
  < spec_pv_per_unit PUT S1 K T sigma r_d r_f.
Proof.
  intros HK HT Hs HS1 HS12.
  destruct (MVT_cor2 (fun S => spec_pv_per_unit PUT S K T sigma r_d r_f)
              (fun S => exp (- r_f * T)
                        * (norm.cdf (spec_d1 S K T sigma r_d r_f) - 1))
              S1 S2 HS12) as (c & Hc & Hin).
  { intros c Hc. apply Greeks.put_derivable_spot; lra. }
  assert (0 < exp (- r_f * T)
              * (1 - norm.cdf (spec_d1 c K T sigma r_d r_f))).
  { apply Rmult_lt_0_compat; [apply exp_pos |].
    pose proof (norm_facts.cdf_lt_1 (spec_d1 c K T sigma r_d r_f)). lra. }
  cbv beta in Hc. nra.
Qed.

(** X4: the present value of a validated trade, CALL or PUT, increases
    strictly with the volatility, over all positive volatilities. *)
Theorem pv_increases_with_volatility (t : ValidatedTrade) (s1 s2 : R) :
  is_validated t -> 0 < s1 -> s1 < s2 ->
  _calculate_pv (with_volatility t s1) < _calculate_pv (with_volatility t s2).
Proof.
  intros Hv Hs1 Hs12. apply is_validated_bounds in Hv.
  destruct Hv as (HK & HN & HT & HS & _).
  rewrite !calculate_pv_per_unit. simpl.
  apply Rmult_lt_compat_r; [exact HN |].
  apply per_unit_increasing_in_volatility; lra.
Qed.

Lemma pv_increases_with_volatility_witness :
  _calculate_pv (with_volatility TEST004 0.1)
  < _calculate_pv (with_volatility TEST004 0.2).
Proof.
  apply (pv_increases_with_volatility TEST004 0.1 0.2).
  - exact TEST004_validated.
  - lra.
  - lra.
Defined.

(** X5: over the positive spots the present value of a validated CALL
    increases strictly with the spot and that of a validated PUT decreases
    strictly. *)
Theorem pv_monotone_in_spot (t : ValidatedTrade) (S1 S2 : R) :
  is_validated t -> 0 < S1 -> S1 < S2 ->
  (option_type t = CALL ->
   _calculate_pv (with_spot t S1) < _calculate_pv (with_spot t S2)) /\
  (option_type t = PUT ->
   _calculate_pv (with_spot t S2) < _calculate_pv (with_spot t S1)).
Proof.
  intros Hv HS1 HS12. apply is_validated_bounds in Hv.
  destruct Hv as (HK & HN & HT & HS & Hvol & _).
  rewrite !calculate_pv_per_unit. simpl.
  split; intros ->; (apply Rmult_lt_compat_r; [exact HN |]).
  - apply call_per_unit_increasing_in_spot; lra.
  - apply put_per_unit_decreasing_in_spot; lra.
Qed.

Lemma pv_monotone_in_spot_witness :
  (option_type TEST004 = CALL ->
   _calculate_pv (with_spot TEST004 1) < _calculate_pv (with_spot TEST004 1.2))
  /\
  (option_type TEST004 = PUT ->
   _calculate_pv (with_spot TEST004 1.2) < _calculate_pv (with_spot TEST004 1)).
Proof.
  apply (pv_monotone_in_spot TEST004 1 1.2).
  - exact TEST004_validated.
  - lra.
  - lra.
Defined.

(** ** More on the validator *)

Lemma OptionType_of_value_Some (s : string) (o : OptionType) :
  OptionType_of_value s = Some o <-> s = OptionType_value o.
Proof.
  unfold OptionType_of_value, enum_of_value, OptionType_members, find,
    OptionType_value.
  destruct (String.eqb_spec "CALL" s) as [<- | Hc].
  { destruct o; split; (discriminate || reflexivity || congruence). }
  destruct (String.eqb_spec "PUT" s) as [<- | Hp].
  { destruct o; split; (discriminate || reflexivity || congruence). }
  split; [discriminate |]. intros ->. destruct o; congruence.
Qed.

Lemma CurrencyPair_of_value_Some (s : string) (p : CurrencyPair) :
  CurrencyPair_of_value s = Some p <-> s = CurrencyPair_value p.
Proof.
  unfold CurrencyPair_of_value, enum_of_value, CurrencyPair_members, find,
    CurrencyPair_value.
  repeat match goal with
         | |- context [String.eqb ?a s] =>
             destruct (String.eqb_spec a s) as [<- | ?];
             [destruct p; split;
              (discriminate || reflexivity || congruence) |]
         end.
  split; [discriminate |]. intros ->. destruct p; congruence.
Qed.

(** X6: looking a value up in either enum and taking the value of a member
    are inverse to each other: a member is found from its own value, and
    the only strings found are the values of the members. *)
Theorem enum_value_round_trip :
  (forall o : OptionType, OptionType_of_value (OptionType_value o) = Some o) /\
  (forall p : CurrencyPair,
      CurrencyPair_of_value (CurrencyPair_value p) = Some p) /\
  (forall (s : string) (o : OptionType),
      OptionType_of_value s = Some o -> OptionType_value o = s) /\
  (forall (s : string) (p : CurrencyPair),
      CurrencyPair_of_value s = Some p -> CurrencyPair_value p = s) /\
  (forall t : ValidatedTrade,
      OptionType_of_value (PricedTrade.option_type (priced_of t))
      = Some (option_type t) /\
      CurrencyPair_of_value (PricedTrade.currency_pair (priced_of t))
      = Some (currency_pair t)).
Proof.
  split; [intro o; now apply OptionType_of_value_Some |].
  split; [intro p; now apply CurrencyPair_of_value_Some |].
  split; [intros s o H; symmetry; now apply OptionType_of_value_Some |].
  split; [intros s p H; symmetry; now apply CurrencyPair_of_value_Some |].
  intro t. split;
    [now apply OptionType_of_value_Some | now apply CurrencyPair_of_value_Some].
Qed.


Lemma parse_currency_pair_ok (raw : string) (p : CurrencyPair) :
  parse_currency_pair raw = inr p <->
  PyStr.upper (PyStr.remove_char " " (PyStr.remove_char "/" raw))
  = CurrencyPair_value p.
Proof.
  unfold parse_currency_pair.
  destruct (CurrencyPair_of_value _) as [p' |] eqn:E.
  - apply CurrencyPair_of_value_Some in E. unfold ret.
    split; [intros [= <-]; exact E |].
    intro H. rewrite H in E. destruct p, p'; (reflexivity || discriminate).
  - split; [discriminate |]. intro H.
    apply CurrencyPair_of_value_Some in H. congruence.
Qed.

Lemma decorated_letter_char (b c : ascii) :
  PyStr.is_upper b = true -> c = b \/ c = PyStr.lower_ascii b ->
  Ascii.eqb c "/" = false /\ Ascii.eqb c " " = false /\
  PyStr.upper_ascii c = b.
Proof.
  intros Hb [-> | ->]; revert Hb;
    destruct b as [[] [] [] [] [] [] [] []]; vm_compute;
    (discriminate || (intros _; repeat split)).
Qed.

Lemma decorated_normalizes (base s : string) :
  decorated base s ->
  PyStr.upper (PyStr.remove_char " " (PyStr.remove_char "/" s)) = base.
Proof.
  induction 1 as [| base s _ IH | base s _ IH | b c base s Hb Hc _ IH].
  - reflexivity.
  - simpl. exact IH.
  - simpl. exact IH.
  - destruct (decorated_letter_char b c Hb Hc) as (H1 & H2 & H3).
    simpl. rewrite H1. simpl. rewrite H2. simpl. rewrite H3, IH.
    reflexivity.
Qed.

(** X7: an underlying that is the six-letter code of a supported pair, with
    its letters in either case and with slashes and spaces anywhere, is
    read as that pair. *)
Theorem parse_currency_pair_decorated (p : CurrencyPair) (s : string) :
  decorated (CurrencyPair_value p) s -> parse_currency_pair s = ret p.
Proof.
  intro H. apply parse_currency_pair_ok, decorated_normalizes, H.
Qed.

Lemma parse_currency_pair_decorated_witness :
  parse_currency_pair "eur / USD" = ret EURUSD.
Proof.
  apply (parse_currency_pair_decorated EURUSD "eur / USD"). simpl.
  repeat first
    [ apply decorated_nil
    | apply decorated_slash
    | apply decorated_space
    | apply decorated_letter; [reflexivity | (left; reflexivity) || (right; reflexivity) |] ].
Defined.

Section MoreValidatorProperties.

Variable float_str : R -> string.
Variable percent_str : R -> string.
Variable pydantic_str : validation_error -> string.

Local Notation "'validate1'" :=
  (_validate_single_trade float_str percent_str pydantic_str).
Local Notation "'validate_all'" :=
  (validate_trades float_str percent_str pydantic_str).



(** X10: a batch is valid exactly when every record validates; the valid
    trades then are as many as the records and carry their identifiers in
    input order. In any batch the identifiers of the valid trades are those
    of the accepted records, in input order. *)
Theorem validate_trades_is_valid (raw_trades : list RawTrade) :
  (is_valid (validate_all raw_trades) = true
   <-> Forall (fun r => exists v, validate1 r = inr v) raw_trades) /\
  (is_valid (validate_all raw_trades) = true ->
   map trade_id (valid_trades (validate_all raw_trades))
   = map TradeID raw_trades) /\
  map trade_id (valid_trades (validate_all raw_trades))
  = map TradeID
      (filter (fun r => match validate1 r with
                        | inr _ => true
                        | inl _ => false
                        end) raw_trades).
Proof.
  destruct (validate_trades_flat_map float_str percent_str pydantic_str
              raw_trades) as [Hv He].
  assert (Hids : map trade_id (valid_trades (validate_all raw_trades))
                 = map TradeID
                     (filter (fun r => match validate1 r with
                                       | inr _ => true
                                       | inl _ => false
                                       end) raw_trades)).
  { rewrite Hv. clear Hv He.
    induction raw_trades as [| r raws IH]; [reflexivity |]. simpl.
    destruct (validate1 r) as [e | v] eqn:Hr; simpl; [exact IH |].
    rewrite IH. f_equal. apply validate_single_ok in Hr.
    destruct Hr as (o & p & _ & _ & _ & _ & ->). reflexivity. }
  assert (Hiff : is_valid (validate_all raw_trades) = true
                 <-> Forall (fun r => exists v, validate1 r = inr v)
                       raw_trades).
  { unfold is_valid. rewrite He. clear Hv He Hids.
    induction raw_trades as [| r raws IH]; simpl.
    - split; [constructor | reflexivity].
    - destruct (validate1 r) as [e | v] eqn:Hr; simpl.
      + split; [discriminate |]. intro H. inversion H as [| ? ? [v Hv] _].
        congruence.
      + rewrite IH. split.
        * intro H. constructor; [exists v; exact Hr | exact H].
        * intro H. inversion H. assumption. }
  split; [exact Hiff |]. split; [| exact Hids].
  intro H. rewrite Hids. f_equal. apply Hiff in H. clear Hv He Hids Hiff.
  induction H as [| r raws [v Hr] _ IH]; [reflexivity |]. simpl.
  rewrite Hr, IH. reflexivity.
Qed.

End MoreValidatorProperties.

(** ** More on the aggregator *)

Lemma to_reporting_currency_unit (a : R) (trade : PricedTrade) (rc : string) :
  (forall k, _to_reporting_currency 1 trade rc = inr k ->
             _to_reporting_currency a trade rc = ret (a * k)) /\
  (forall e, _to_reporting_currency 1 trade rc = inl e ->
             _to_reporting_currency a trade rc = inl e).
Proof.
  split; [| intro e; apply to_reporting_currency_raises].
  intro k. unfold _to_reporting_currency, float_div, ret, raise.
  destruct (String.eqb _ (PyStr.upper rc)).
  { intros [= <-]. f_equal. ring. }
  destruct (String.eqb (PricedTrade.currency_pair trade) "USDJPY");
    [| discriminate].
  destruct (_ && _).
  - destruct (Req_dec_T (PricedTrade.spot trade) 0); [discriminate |].
    intros [= <-]. f_equal. field. assumption.
  - destruct (_ && _); [| discriminate].
    intros [= <-]. f_equal. ring.
Qed.

(** X11: a conversion is linear in the amount. It is the product of the
    amount and of the conversion of the amount 1, which is 1, the inverse
    of the spot or the spot; and when the conversion of 1 raises, that of
    every amount raises the same exception. *)
Theorem to_reporting_currency_linear (amount : R) (trade : PricedTrade)
    (reporting_currency : string) :
  (forall k : R,
      _to_reporting_currency 1 trade reporting_currency = inr k ->
      _to_reporting_currency amount trade reporting_currency
      = ret (amount * k) /\
      (k = 1 \/ k = / PricedTrade.spot trade \/ k = PricedTrade.spot trade)) /\
  (forall e : exn,
      _to_reporting_currency 1 trade reporting_currency = inl e ->
      _to_reporting_currency amount trade reporting_currency = inl e).
Proof.
  destruct (to_reporting_currency_unit amount trade reporting_currency)
    as [Hk He].
  split; [| exact He].
  intros k H. split; [apply Hk, H |].
  revert H. unfold _to_reporting_currency, float_div, ret, raise.
  destruct (String.eqb _ (PyStr.upper reporting_currency)).
  { intros [= <-]. left. reflexivity. }
  destruct (String.eqb (PricedTrade.currency_pair trade) "USDJPY");
    [| discriminate].
  destruct (_ && _).
  - destruct (Req_dec_T (PricedTrade.spot trade) 0); [discriminate |].
    intros [= <-]. right. left. unfold Rdiv. ring.
  - destruct (_ && _); [| discriminate].
    intros [= <-]. right. right. ring.
Qed.

Lemma aggregate_step_unit (rc : string) (tp td tv k : R) (t : PricedTrade) :
  _to_reporting_currency 1 t rc = inr k ->
  aggregate_step rc (tp, td, tv) t
  = ret (tp + PricedTrade.pv t * k, td + PricedTrade.delta t * k,
         tv + PricedTrade.vega t * k).
Proof.
  intro H. unfold aggregate_step.
  rewrite !(proj1 (to_reporting_currency_unit _ t rc) k H). reflexivity.
Qed.

Lemma for_each_rates (rc : string) (trades : list PricedTrade)
    (rates : list R) (tp td tv : R) :
  Forall2 (fun t k => _to_reporting_currency 1 t rc = inr k) trades rates ->
  for_each (aggregate_step rc) trades (tp, td, tv)
  = ret (fold_left (fun acc tk => acc + PricedTrade.pv (fst tk) * snd tk)
           (combine trades rates) tp,
         fold_left (fun acc tk => acc + PricedTrade.delta (fst tk) * snd tk)
           (combine trades rates) td,
         fold_left (fun acc tk => acc + PricedTrade.vega (fst tk) * snd tk)
           (combine trades rates) tv).
Proof.
  intro H. revert tp td tv.
  induction H as [| t k trades rates Ht _ IH]; intros tp td tv;
    [reflexivity |].
  cbn [for_each combine fold_left fst snd].
  rewrite (aggregate_step_unit rc tp td tv k t Ht). apply IH.
Qed.

Lemma for_each_first_error (rc : string) (ok rest : list PricedTrade)
    (bad : PricedTrade) (e : exn) (totals : R * R * R) :
  Forall (fun t => exists k, _to_reporting_currency 1 t rc = inr k) ok ->
  _to_reporting_currency 1 bad rc = inl e ->
  for_each (aggregate_step rc) (ok ++ bad :: rest) totals = inl e.
Proof.
  intros Hok Hbad. revert totals.
  induction Hok as [| t ok [k Ht] _ IH]; intros [[tp td] tv];
    cbn [app for_each].
  - rewrite (aggregate_step_raises rc _ bad e); [reflexivity |].
    apply (to_reporting_currency_raises 1), Hbad.
  - rewrite (aggregate_step_unit rc tp td tv k t Ht). apply IH.
Qed.

Lemma aggregate_portfolio_rates (today : date)
    (priced_trades : list PricedTrade) (rates : list R)
    (valuation_date : option date) (reporting_currency : string) :
  Forall2 (fun t k => _to_reporting_currency 1 t reporting_currency = inr k)
    priced_trades rates ->
  aggregate_portfolio today priced_trades valuation_date reporting_currency
  = ret {| total_trades := List.length priced_trades;
           total_pv :=
             fold_left
               (fun acc tk => acc + PricedTrade.pv (fst tk) * snd tk)
               (combine priced_trades rates) 0;
           total_delta :=
             fold_left
               (fun acc tk => acc + PricedTrade.delta (fst tk) * snd tk)
               (combine priced_trades rates) 0;
           total_vega :=
             fold_left
               (fun acc tk => acc + PricedTrade.vega (fst tk) * snd tk)
               (combine priced_trades rates) 0;
           valuation_date :=
             match valuation_date with
             | None => today
             | Some d => d
             end;
           reporting_currency := reporting_currency |}.
Proof.
  intro H. unfold aggregate_portfolio.
  rewrite (for_each_rates reporting_currency priced_trades rates 0 0 0 H).
  reflexivity.
Qed.

Lemma aggregate_portfolio_raises_first (today : date)
    (ok rest : list PricedTrade) (bad : PricedTrade) (e : exn)
    (valuation_date : option date) (reporting_currency : string) :
  Forall (fun t => exists k,
              _to_reporting_currency 1 t reporting_currency = inr k) ok ->
  _to_reporting_currency 1 bad reporting_currency = inl e ->
  aggregate_portfolio today (ok ++ bad :: rest) valuation_date
    reporting_currency = inl e.
Proof.
  intros Hok Hbad. unfold aggregate_portfolio.
  rewrite (for_each_first_error reporting_currency ok rest bad e (0, 0, 0)
             Hok Hbad).
  reflexivity.
Qed.

Lemma Forall_split_first {A : Type} (P : A -> Prop) (l : list A) :
  (forall x, P x \/ ~ P x) ->
  Forall P l \/
  exists ok bad rest, l = (ok ++ bad :: rest)%list /\ Forall P ok /\ ~ P bad.
Proof.
  intro Hdec. induction l as [| x l IH]; [left; constructor |].
  destruct (Hdec x) as [Hx | Hx].
  - destruct IH as [IH | (ok & bad & rest & -> & Hok & Hbad)].
    + left. constructor; assumption.
    + right. exists (x :: ok), bad, rest. repeat split; try assumption.
      constructor; assumption.
  - right. exists [], x, l. repeat split; [constructor | assumption].
Qed.

(** The aggregation either returns, every trade converting, or raises the
    exception of the first trade that does not convert. *)
Lemma aggregate_portfolio_cases (today : date)
    (priced_trades : list PricedTrade) (vd : option date)
    (rc : string) :
  (Forall (fun t => exists k, _to_reporting_currency 1 t rc = inr k)
     priced_trades /\
   exists summary,
     aggregate_portfolio today priced_trades vd rc = inr summary /\
     total_trades summary = List.length priced_trades /\
     reporting_currency summary = rc /\
     valuation_date summary
     = match vd with
       | None => today
       | Some d => d
       end) \/
  (exists ok bad rest e,
      priced_trades = (ok ++ bad :: rest)%list /\
      Forall (fun t => exists k, _to_reporting_currency 1 t rc = inr k) ok /\
      _to_reporting_currency 1 bad rc = inl e /\
      aggregate_portfolio today priced_trades vd rc = inl e).
Proof.
  destruct (Forall_split_first
              (fun t => exists k, _to_reporting_currency 1 t rc = inr k)
              priced_trades) as [H | (ok & bad & rest & -> & Hok & Hbad)].
  - intro t. destruct (_to_reporting_currency 1 t rc) as [e | k].
    + right. intros [k Hk]. discriminate.
    + left. exists k. reflexivity.
  - left. split; [exact H |].
    assert (Hr : exists rates,
               Forall2 (fun t k => _to_reporting_currency 1 t rc = inr k)
                 priced_trades rates).
    { induction H as [| t l [k Hk] _ [rates IH]].
      - exists []. constructor.
      - exists (k :: rates). constructor; assumption. }
    destruct Hr as [rates Hr]. eexists.
    split; [apply (aggregate_portfolio_rates today priced_trades rates
                     vd rc Hr) |].
    repeat split.
  - right. destruct (_to_reporting_currency 1 bad rc) as [e | k] eqn:Hb.
    + exists ok, bad, rest, e. repeat split; try assumption.
      apply aggregate_portfolio_raises_first; assumption.
    + elim Hbad. exists k. reflexivity.
Qed.

(** X12: when every trade converts, the summary counts the trades, keeps
    the reporting currency and the valuation date (today's when none is
    given) and its totals are the sums, in input order and from 0, of the
    metrics multiplied by the rates of their trades. *)
Theorem aggregate_portfolio_totals (today : date)
    (priced_trades : list PricedTrade) (rates : list R)
    (valuation_date : option date) (reporting_currency : string) :
  Forall2 (fun t k => _to_reporting_currency 1 t reporting_currency = inr k)
    priced_trades rates ->
  aggregate_portfolio today priced_trades valuation_date reporting_currency
  = ret {| total_trades := List.length priced_trades;
           total_pv :=
             fold_left
               (fun acc tk => acc + PricedTrade.pv (fst tk) * snd tk)
               (combine priced_trades rates) 0;
           total_delta :=
             fold_left
               (fun acc tk => acc + PricedTrade.delta (fst tk) * snd tk)
               (combine priced_trades rates) 0;
           total_vega :=
             fold_left
               (fun acc tk => acc + PricedTrade.vega (fst tk) * snd tk)
               (combine priced_trades rates) 0;
           valuation_date :=
             match valuation_date with
             | None => today
             | Some d => d
             end;
           reporting_currency := reporting_currency |}.
Proof. apply aggregate_portfolio_rates. Qed.

Lemma aggregate_portfolio_totals_witness :
  aggregate_portfolio 0%nat [priced_T1; priced_JPY] None "USD"
  = ret {| total_trades := 2;
           total_pv := 0 + 25000 * 1 + 1000000 * (1 / 110);
           total_delta := 0 + 500000 * 1 + 500000 * (1 / 110);
           total_vega := 0 + 3000 * 1 + 3000 * (1 / 110);
           valuation_date := 0%nat;
           reporting_currency := "USD" |}.
Proof.
  apply (aggregate_portfolio_totals 0%nat [priced_T1; priced_JPY]
           [1; 1 / 110] None "USD").
  constructor; [reflexivity |]. constructor; [| constructor].
  unfold _to_reporting_currency, float_div. simpl. case_R_dec. reflexivity.
Defined.

(** X13: the aggregation raises the exception of the first trade, in input
    order, whose conversion raises, whatever the trades after it are. *)
Theorem aggregate_portfolio_first_error (today : date)
    (ok rest : list PricedTrade) (bad : PricedTrade) (e : exn)
    (valuation_date : option date) (reporting_currency : string) :
  Forall (fun t => exists k,
              _to_reporting_currency 1 t reporting_currency = inr k) ok ->
  _to_reporting_currency 1 bad reporting_currency = inl e ->
  aggregate_portfolio today (ok ++ bad :: rest) valuation_date
    reporting_currency = inl e.
Proof. apply aggregate_portfolio_raises_first. Qed.

Lemma aggregate_portfolio_first_error_witness :
  aggregate_portfolio 0%nat ([priced_T1] ++ priced_EUR :: [priced_JPY]) None
    "USD"
  = inl (ValueError "Unsupported conversion EUR->USD for EURUSD").
Proof.
  apply (aggregate_portfolio_first_error 0%nat [priced_T1] [priced_JPY]
           priced_EUR).
  - constructor; [| constructor]. exists 1. reflexivity.
  - reflexivity.
Defined.


(** ** The run, from the loaded records to the writer *)

Lemma str_exn_exn (e : exn) :
  (exists msg, e = ValueError msg) \/ (exists msg, e = ZeroDivisionError msg).
Proof. destruct e as [msg | msg]; [left | right]; exists msg; reflexivity. Qed.

Lemma CurrencyPair_value_USDJPY (p : CurrencyPair) :
  String.eqb (CurrencyPair_value p) "USDJPY" = true <-> p = USDJPY.
Proof. destruct p; simpl; split; (reflexivity || discriminate). Qed.

Lemma is_validated_currency (v : ValidatedTrade) :
  is_validated v -> notional_currency v = "USD" \/ notional_currency v = "JPY".
Proof.
  intros (_ & _ & H). simpl in H.
  destruct (String.eqb_spec (notional_currency v) "USD"); [tauto |].
  destruct (String.eqb_spec (notional_currency v) "JPY"); [tauto |].
  discriminate.
Qed.

(** The conversion of a priced validated trade never divides by zero. *)
Lemma priced_conversion_error (v : ValidatedTrade) (rc : string) (a : R)
    (e : exn) :
  is_validated v ->
  _to_reporting_currency a (priced_of v) rc = inl e ->
  e = ValueError
        ("Unsupported conversion " ++ PyStr.upper (notional_currency v)
         ++ "->" ++ PyStr.upper rc ++ " for "
         ++ CurrencyPair_value (currency_pair v)).
Proof.
  intros Hv. apply is_validated_bounds in Hv.
  destruct Hv as (_ & _ & _ & HS & _).
  unfold _to_reporting_currency, float_div, raise, ret. simpl.
  destruct (String.eqb _ (PyStr.upper rc)); [discriminate |].
  destruct (String.eqb (CurrencyPair_value (currency_pair v)) "USDJPY").
  - destruct (_ && _).
    + destruct (Req_dec_T (spot v) 0); [lra | discriminate].
    + destruct (_ && _); [discriminate |]. intros [= <-]. reflexivity.
  - intros [= <-]. reflexivity.
Qed.

(** Under the reporting currency USD a priced validated trade converts
    exactly when its notional is in USD or its pair is USDJPY. *)
Lemma priced_converts_to_usd (v : ValidatedTrade) :
  is_validated v ->
  (exists k, _to_reporting_currency 1 (priced_of v) "USD" = inr k)
  <-> notional_currency v = "USD" \/ currency_pair v = USDJPY.
Proof.
  intro Hv. pose proof (is_validated_currency v Hv) as Hc.
  apply is_validated_bounds in Hv. destruct Hv as (_ & _ & _ & HS & _).
  unfold _to_reporting_currency, float_div, raise, ret. simpl.
  destruct Hc as [-> | ->]; simpl.
  - split; [tauto | intros _; eexists; reflexivity].
  - destruct (String.eqb (CurrencyPair_value (currency_pair v)) "USDJPY")
      eqn:Ep.
    + apply CurrencyPair_value_USDJPY in Ep.
      destruct (Req_dec_T (spot v) 0); [lra |].
      split; [tauto | intros _; eexists; reflexivity].
    + split; [intros [k Hk]; discriminate |].
      intros [H | H]; [discriminate |].
      apply CurrencyPair_value_USDJPY in H. congruence.
Qed.

Lemma firstn_length_min {A : Type} (n : nat) (l : list A) :
  List.length (firstn n l) = Nat.min n (List.length l).
Proof. apply length_firstn. Qed.

Lemma validation_report_length (errors : list string) :
  List.length (validation_report errors)
  = (1 + Nat.min 10 (List.length errors)
     + (if (10 <? List.length errors)%nat then 1 else 0))%nat /\
  (List.length (validation_report errors) <= 12)%nat.
Proof.
  unfold validation_report. cbv zeta.
  cbn [List.length]. rewrite length_app, length_map, length_firstn.
  destruct (10 <? List.length errors)%nat eqn:E; simpl List.length; lia.
Qed.

Section RunProperties.

Variable float_str : R -> string.
Variable percent_str : R -> string.
Variable pydantic_str : validation_error -> string.

Local Notation "'validate1'" :=
  (_validate_single_trade float_str percent_str pydantic_str).
Local Notation "'validate_all'" :=
  (validate_trades float_str percent_str pydantic_str).
Local Notation "'run_loaded'" := (run float_str percent_str pydantic_str).

Lemma errors_count (raw_trades : list RawTrade) :
  List.length (errors (validate_all raw_trades))
  = List.length
      (filter (fun r => match validate1 r with
                        | inr _ => false
                        | inl _ => true
                        end) raw_trades).
Proof.
  destruct (validate_trades_flat_map float_str percent_str pydantic_str
              raw_trades) as [_ ->].
  induction raw_trades as [| r raws IH]; [reflexivity |]. simpl.
  destruct (validate1 r); simpl; rewrite IH; reflexivity.
Qed.

Lemma is_valid_all (raw_trades : list RawTrade) :
  is_valid (validate_all raw_trades) = true
  <-> Forall (fun r => exists v, validate1 r = inr v) raw_trades.
Proof.
  destruct (validate_trades_flat_map float_str percent_str pydantic_str
              raw_trades) as [_ He].
  unfold is_valid. rewrite He. clear He.
  induction raw_trades as [| r raws IH]; simpl.
  - split; [constructor | reflexivity].
  - destruct (validate1 r) as [e | v] eqn:Hr; simpl.
    + split; [discriminate |]. intro H. inversion H as [| ? ? [v Hv] _].
      congruence.
    + rewrite IH. split.
      * intro H. constructor; [exists v; exact Hr | exact H].
      * intro H. inversion H. assumption.
Qed.

Lemma valid_trades_all (raw_trades : list RawTrade) :
  Forall (fun r => exists v, validate1 r = inr v) raw_trades ->
  Forall2 (fun r v => validate1 r = inr v) raw_trades
    (valid_trades (validate_all raw_trades)).
Proof.
  destruct (validate_trades_flat_map float_str percent_str pydantic_str
              raw_trades) as [-> _].
  induction 1 as [| r raws [v Hr] _ IH]; simpl; [constructor |].
  rewrite Hr. simpl. constructor; assumption.
Qed.

Lemma priced_of_validated (raws : list RawTrade) (vs : list ValidatedTrade) :
  Forall2 (fun r v => validate1 r = inr v) raws vs ->
  Forall2 (fun r p => exists v, validate1 r = inr v /\ p = priced_of v)
    raws (map priced_of vs) /\
  map PricedTrade.trade_id (map priced_of vs) = map TradeID raws /\
  List.length vs = List.length raws.
Proof.
  induction 1 as [| r v raws vs Hr _ (IH1 & IH2 & IH3)]; simpl.
  - repeat split. constructor.
  - split; [| split].
    + constructor; [exists v; split; [exact Hr | reflexivity] | exact IH1].
    + rewrite IH2. f_equal. apply validate_single_ok in Hr.
      destruct Hr as (o & q & _ & _ & _ & _ & ->). reflexivity.
    + congruence.
Qed.

(** X14: a run with a record that does not validate prices nothing and
    writes nothing: it ends with exit status 1 after a report of one
    header, one line for each of the first ten errors at most, and one line
    more only when there are more than ten errors; there are as many
    errors as records that do not validate. A run without such a record
    does not end so. *)
Theorem run_validation_failure (today : date) (config : Config.t)
    (raw_trades : list RawTrade) :
  let failed :=
    filter (fun r => match validate1 r with
                     | inr _ => false
                     | inl _ => true
                     end) raw_trades in
  (failed <> [] ->
   run_loaded today config raw_trades
   = Exited 1 (validation_report (errors (validate_all raw_trades))) /\
   List.length (errors (validate_all raw_trades)) = List.length failed /\
   List.length (validation_report (errors (validate_all raw_trades)))
   = (1 + Nat.min 10 (List.length failed)
      + (if (10 <? List.length failed)%nat then 1 else 0))%nat) /\
  (failed = [] ->
   forall status report,
     run_loaded today config raw_trades <> Exited status report).
Proof.
  cbv zeta. pose proof (errors_count raw_trades) as Hc.
  split.
  - intro Hne.
    assert (Hinv : is_valid (validate_all raw_trades) = false).
    { unfold is_valid. rewrite Hc.
      destruct (filter _ raw_trades); [congruence | reflexivity]. }
    unfold run. rewrite Hinv. cbn [negb].
    split; [reflexivity |]. split; [exact Hc |].
    rewrite <- Hc. apply validation_report_length.
  - intros He status report.
    assert (Hval : is_valid (validate_all raw_trades) = true).
    { unfold is_valid. rewrite Hc, He. reflexivity. }
    unfold run. rewrite Hval. cbn [negb].
    destruct (aggregate_portfolio _ _ _ _); discriminate.
Qed.

(** X15: what reaches the writer. When a run calls the writer, every
    record has validated; the priced trades are the records in input order,
    one for one, with their identifiers; the summary counts them and has
    the reporting currency and the valuation date of the configuration. *)
Theorem run_written (today : date) (config : Config.t)
    (raw_trades : list RawTrade) (priced_trades : list PricedTrade)
    (summary : PortfolioSummary) :
  run_loaded today config raw_trades = Written priced_trades summary ->
  Forall2 (fun r p => exists v, validate1 r = inr v /\ p = priced_of v)
    raw_trades priced_trades /\
  map PricedTrade.trade_id priced_trades = map TradeID raw_trades /\
  total_trades summary = List.length raw_trades /\
  reporting_currency summary = Config.reporting_currency config /\
  valuation_date summary = Config.valuation_date config.
Proof.
  unfold run.
  destruct (is_valid (validate_all raw_trades)) eqn:Hval; cbn [negb];
    [| discriminate].
  apply is_valid_all in Hval. pose proof (valid_trades_all raw_trades Hval) as H2.
  rewrite price_portfolio_map.
  destruct (aggregate_portfolio_cases today
              (map priced_of (valid_trades (validate_all raw_trades)))
              (Some (Config.valuation_date config))
              (Config.reporting_currency config))
    as [(_ & s & Hs & Hn & Hrc & Hvd)
       | (ok & bad & rest & e & _ & _ & _ & He)].
  2:{ rewrite He. discriminate. }
  rewrite Hs. intros [= <- <-].
  destruct (priced_of_validated raw_trades _ H2) as (HF & Hid & Hlen).
  split; [exact HF |]. split; [exact Hid |].
  rewrite Hn, length_map, Hlen. repeat split; assumption.
Qed.

(** X16: a run never fails on a division by zero: when the aggregation
    raises, the exception is the [ValueError] that names the unsupported
    conversion, into the reporting currency of the configuration, of one of
    the validated trades. *)
Theorem run_raises_value_error (today : date) (config : Config.t)
    (raw_trades : list RawTrade) (e : exn) :
  run_loaded today config raw_trades = Raised e ->
  exists v : ValidatedTrade,
    In v (valid_trades (validate_all raw_trades)) /\
    e = ValueError
          ("Unsupported conversion " ++ PyStr.upper (notional_currency v)
           ++ "->" ++ PyStr.upper (Config.reporting_currency config)
           ++ " for " ++ CurrencyPair_value (currency_pair v)).
Proof.
  unfold run.
  destruct (is_valid (validate_all raw_trades)) eqn:Hval; cbn [negb];
    [| discriminate].
  pose proof (validate_trades_validated float_str percent_str pydantic_str
                raw_trades) as Hvs.
  rewrite price_portfolio_map.
  destruct (aggregate_portfolio_cases today
              (map priced_of (valid_trades (validate_all raw_trades)))
              (Some (Config.valuation_date config))
              (Config.reporting_currency config))
    as [(_ & s & Hs & _) | (ok & bad & rest & e' & Hl & _ & Hbad & He)].
  { rewrite Hs. discriminate. }
  rewrite He. intros [= <-].
  assert (Hin : In bad (map priced_of (valid_trades (validate_all raw_trades)))).
  { rewrite Hl. apply in_or_app. right. left. reflexivity. }
  apply in_map_iff in Hin. destruct Hin as (v & <- & Hv).
  exists v. split; [exact Hv |].
  rewrite Forall_forall in Hvs.
  apply (priced_conversion_error v _ 1 e' (Hvs v Hv) Hbad).
Qed.

(** X17: under the default configuration, whose reporting currency is USD,
    a run reaches the writer exactly when every record validates and has
    its notional in USD or is on the pair USDJPY. *)
Theorem run_default_writes (today : date) (raw_trades : list RawTrade) :
  (exists priced_trades summary,
      run_loaded today (Config.default today) raw_trades
      = Written priced_trades summary)
  <-> Forall (fun r =>
                exists v, validate1 r = inr v /\
                          (NotionalCurrency r = "USD" \/
                           currency_pair v = USDJPY)) raw_trades.
Proof.
  unfold run. simpl Config.reporting_currency. simpl Config.valuation_date.
  pose proof (validate_trades_validated float_str percent_str pydantic_str
                raw_trades) as Hvs.
  rewrite price_portfolio_map.
  destruct (is_valid (validate_all raw_trades)) eqn:Hval; cbn [negb].
  - apply is_valid_all in Hval.
    pose proof (valid_trades_all raw_trades Hval) as H2.
    set (vs := valid_trades (validate_all raw_trades)) in *.
    assert (Hconv :
      Forall (fun t => exists k, _to_reporting_currency 1 t "USD" = inr k)
        (map priced_of vs)
      <-> Forall (fun r =>
                    exists v, validate1 r = inr v /\
                              (NotionalCurrency r = "USD" \/
                               currency_pair v = USDJPY)) raw_trades).
    { clearbody vs. clear Hval.
      induction H2 as [| r v raws vs' Hr _ IH]; simpl.
      - split; constructor.
      - inversion Hvs as [| ? ? Hv Hvs']; subst.
        assert (Hnc : notional_currency v = NotionalCurrency r).
        { apply validate_single_ok in Hr.
          destruct Hr as (o & q & _ & _ & _ & _ & ->). reflexivity. }
        split.
        + intro H. inversion H as [| ? ? Hk Hrest]; subst.
          constructor; [| apply IH; assumption].
          exists v. split; [exact Hr |].
          rewrite <- Hnc. apply priced_converts_to_usd; assumption.
        + intro H. inversion H as [| ? ? (v' & Hr' & Hc) Hrest]; subst.
          constructor; [| apply IH; assumption].
          assert (v' = v) by congruence. subst v'.
          apply priced_converts_to_usd; [assumption |].
          rewrite Hnc. exact Hc. }
    rewrite <- Hconv.
    destruct (aggregate_portfolio_cases today (map priced_of vs) (Some today)
                "USD")
      as [(Hall & s & Hs & _) | (ok & bad & rest & e & Hl & _ & Hbad & He)].
    + rewrite Hs. split; [intros _; exact Hall | intros _; eauto].
    + rewrite He. split; [intros (p & s & H); discriminate |].
      intro Hall. exfalso. rewrite Hl in Hall.
      apply Forall_app in Hall. destruct Hall as [_ Hall].
      inversion Hall as [| ? ? [k Hk] _]. congruence.
  - split; [intros (p & s & H); discriminate |].
    intro H. exfalso.
    assert (Hall : Forall (fun r => exists v, validate1 r = inr v) raw_trades).
    { eapply Forall_impl; [| exact H]. simpl. intros r (v & Hr & _). eauto. }
    apply is_valid_all in Hall. congruence.
Qed.

End RunProperties.

(** *** Runs on records of the test suite *)


Lemma T_JPY_validates :
  _validate_single_trade some_float_str some_float_str some_error_str T_JPY
  = inr (candidate T_JPY CALL EURUSD).
Proof.
  apply validate_single_ok. exists CALL, EURUSD.
  split; [reflexivity |]. split; [reflexivity |].
  split; [simpl; lra |]. split; [| reflexivity].
  split; [| split].
  - apply field_errors_nil. simpl. lra.
  - simpl. lra.
  - reflexivity.
Qed.

Lemma validate_trades_all_ok (float_str percent_str : R -> string)
    (pydantic_str : validation_error -> string)
    (raws : list RawTrade) (vs : list ValidatedTrade) :
  Forall2 (fun r v =>
             _validate_single_trade float_str percent_str pydantic_str r
             = inr v) raws vs ->
  validate_trades float_str percent_str pydantic_str raws
  = {| valid_trades := vs; errors := [] |}.
Proof.
  intro H.
  destruct (validate_trades_flat_map float_str percent_str pydantic_str raws)
    as [Hv He].
  destruct (validate_trades float_str percent_str pydantic_str raws)
    as [vs' es']. simpl in Hv, He. subst vs' es'.
  induction H as [| r v raws vs Hr _ IH]; [reflexivity |].
  simpl. rewrite Hr. simpl. injection IH as -> ->. reflexivity.
Qed.

Lemma run_T001 :
  run some_float_str some_float_str some_error_str 0%nat
    (Config.default 0%nat) [T001]
  = Written [priced_of (candidate T001 CALL EURUSD)]
      {| total_trades := 1;
         total_pv := 0 + _calculate_pv (candidate T001 CALL EURUSD);
         total_delta := 0 + _calculate_delta (candidate T001 CALL EURUSD);
         total_vega := 0 + _calculate_vega (candidate T001 CALL EURUSD);
         valuation_date := 0%nat;
         reporting_currency := "USD" |}.
Proof.
  unfold run.
  rewrite (validate_trades_all_ok _ _ _ [T001] [candidate T001 CALL EURUSD])
    by (constructor; [exact T001_validates | constructor]).
  reflexivity.
Qed.

Lemma run_T_JPY :
  run some_float_str some_float_str some_error_str 0%nat
    (Config.default 0%nat) [T001; T_JPY]
  = Raised (ValueError "Unsupported conversion JPY->USD for EURUSD").
Proof.
  unfold run.
  rewrite (validate_trades_all_ok _ _ _ [T001; T_JPY]
             [candidate T001 CALL EURUSD; candidate T_JPY CALL EURUSD])
    by (constructor; [exact T001_validates |];
        constructor; [exact T_JPY_validates | constructor]).
  reflexivity.
Qed.

Lemma run_written_witness :
  Forall2
    (fun r p =>
       exists v,
         _validate_single_trade some_float_str some_float_str some_error_str r
         = inr v /\ p = priced_of v)
    [T001] [priced_of (candidate T001 CALL EURUSD)] /\
  map PricedTrade.trade_id [priced_of (candidate T001 CALL EURUSD)]
  = map TradeID [T001] /\
  1%nat = List.length [T001] /\
  "USD" = Config.reporting_currency (Config.default 0%nat) /\
  0%nat = Config.valuation_date (Config.default 0%nat).
Proof.
  exact (run_written some_float_str some_float_str some_error_str 0%nat
           (Config.default 0%nat) [T001] _ _ run_T001).
Defined.

Lemma run_raises_value_error_witness :
  exists v : ValidatedTrade,
    In v (valid_trades
            (validate_trades some_float_str some_float_str some_error_str
               [T001; T_JPY])) /\
    ValueError "Unsupported conversion JPY->USD for EURUSD"
    = ValueError
        ("Unsupported conversion " ++ PyStr.upper (notional_currency v)
         ++ "->" ++ PyStr.upper (Config.reporting_currency (Config.default 0%nat))
         ++ " for " ++ CurrencyPair_value (currency_pair v)).
Proof.
  exact (run_raises_value_error some_float_str some_float_str some_error_str
           0%nat (Config.default 0%nat) [T001; T_JPY] _ run_T_JPY).
Defined.

(** ** Low volatility and changes of scale *)

Lemma forward_log_moneyness_pos (S K T r_d r_f : R) :
  0 < S -> 0 < K ->
  K * exp (- r_d * T) < S * exp (- r_f * T) ->
  0 < ln (S / K) + (r_d - r_f) * T.
Proof.
  intros HS HK Hitm.
  apply exp_lt_inv. rewrite exp_0.
  rewrite exp_plus, exp_ln by (apply Rdiv_lt_0_compat; lra).
  replace ((r_d - r_f) * T) with (- r_f * T + - (- r_d * T)) by ring.
  rewrite exp_plus, exp_Ropp.
  pose proof (exp_pos (- r_d * T)) as Hd.
  apply Rmult_lt_reg_r with (K * exp (- r_d * T));
    [apply Rmult_lt_0_compat; lra |].
  replace (S / K * (exp (- r_f * T) * / exp (- r_d * T))
           * (K * exp (- r_d * T)))
    with (S * exp (- r_f * T)) by (field; lra).
  lra.
Qed.

(** The value per unit of a put whose strike, discounted, is below the
    discounted spot vanishes with the volatility. *)
Lemma put_per_unit_low_volatility (S K T s r_d r_f : R) :
  0 < S -> 0 < K -> 0 < T -> 0 < s ->
  K * exp (- r_d * T) < S * exp (- r_f * T) ->
  s * s * T <= ln (S / K) + (r_d - r_f) * T ->
  spec_pv_per_unit PUT S K T s r_d r_f
  * (ln (S / K) + (r_d - r_f) * T) ^ 2
  <= K * exp (- r_d * T) * (8 * (s * s * T)).
Proof.
  intros HS HK HT Hs Hitm Hsmall.
  set (m := ln (S / K) + (r_d - r_f) * T) in *.
  assert (Hm : 0 < m)
    by (apply forward_log_moneyness_pos; assumption).
  assert (Hsq : 0 < sqrt T) by (apply sqrt_lt_R0; lra).
  assert (HTs : sqrt T * sqrt T = T) by (apply sqrt_sqrt; lra).
  set (v := s * sqrt T).
  assert (Hv : 0 < v) by (apply Rmult_lt_0_compat; assumption).
  assert (Hvv : v * v = s * s * T).
  { unfold v. transitivity (s * s * (sqrt T * sqrt T)); [ring |].
    rewrite HTs. reflexivity. }
  set (d2 := spec_d2 S K T s r_d r_f).
  assert (Hd2 : d2 * v = m - 0.5 * (s * s * T)).
  { unfold d2, spec_d2, spec_d1. fold v.
    set (n := ln (S / K) + (r_d - r_f + 0.5 * s ^ 2) * T).
    assert (Hn : n = m + 0.5 * (s * s * T)) by (unfold n, m; lra).
    replace ((n / v - v) * v) with (n - v * v) by (field; lra).
    rewrite Hn, Hvv. lra. }
  assert (Hd2pos : 0 < d2).
  { apply Rmult_lt_reg_r with v; [exact Hv |]. rewrite Hd2. lra. }
  assert (Hk : norm.kernel d2 * (d2 * d2) <= 2).
  { unfold norm.kernel. replace (- d2 ^ 2 / 2) with (- (d2 ^ 2 / 2)) by field.
    rewrite exp_Ropp. pose proof (exp_ineq1_le (d2 ^ 2 / 2)) as He.
    assert (Hpos : 0 < exp (d2 ^ 2 / 2)) by apply exp_pos.
    apply Rmult_le_reg_l with (exp (d2 ^ 2 / 2)); [exact Hpos |].
    rewrite <- Rmult_assoc, Rinv_r, Rmult_1_l by lra. nra. }
  pose proof (Greeks.upper_tail_bound d2 ltac:(lra)) as Htail.
  pose proof (norm_facts.kernel_pos d2) as Hkp.
  assert (Hput : spec_pv_per_unit PUT S K T s r_d r_f
                 <= K * exp (- r_d * T) * norm.kernel d2).
  { unfold spec_pv_per_unit. fold d2.
    rewrite (norm_facts.cdf_opp d2).
    pose proof (norm_facts.cdf_pos (- spec_d1 S K T s r_d r_f)).
    pose proof (exp_pos (- r_d * T)). pose proof (exp_pos (- r_f * T)).
    assert (0 < S * exp (- r_f * T)) by (apply Rmult_lt_0_compat; lra).
    assert (0 < K * exp (- r_d * T)) by (apply Rmult_lt_0_compat; lra).
    nra. }
  assert (Hm2 : m ^ 2 <= 4 * (d2 * v) * (d2 * v)).
  { rewrite Hd2. nra. }
  assert (HKd : 0 < K * exp (- r_d * T)).
  { apply Rmult_lt_0_compat; [lra | apply exp_pos]. }
  assert (Hkm : norm.kernel d2 * m ^ 2 <= 8 * (s * s * T)).
  { rewrite <- Hvv.
    apply Rle_trans with (norm.kernel d2 * (4 * (d2 * v) * (d2 * v))).
    - apply Rmult_le_compat_l; lra.
    - replace (norm.kernel d2 * (4 * (d2 * v) * (d2 * v)))
        with (4 * (v * v) * (norm.kernel d2 * (d2 * d2))) by ring.
      nra. }
  apply Rle_trans with (K * exp (- r_d * T) * norm.kernel d2 * m ^ 2).
  - apply Rmult_le_compat_r; [apply pow2_ge_0 | exact Hput].
  - rewrite Rmult_assoc. apply Rmult_le_compat_l; lra.
Qed.

(** X18: as the volatility goes to 0, the present value of a validated
    CALL whose discounted strike is below its discounted spot tends to the
    notional times [S*exp(-r_f*T) - K*exp(-r_d*T)], its discounted
    intrinsic value. *)
Theorem call_pv_low_volatility_limit (t : ValidatedTrade) (eps : R) :
  is_validated t ->
  option_type t = CALL ->
  strike t * exp (- domestic_rate t * time_to_expiry t)
  < spot t * exp (- foreign_rate t * time_to_expiry t) ->
  0 < eps ->
  exists delta : R,
    0 < delta /\
    forall sigma : R,
      0 < sigma < delta ->
      Rabs (_calculate_pv (with_volatility t sigma)
            - notional t
              * (spot t * exp (- foreign_rate t * time_to_expiry t)
                 - strike t * exp (- domestic_rate t * time_to_expiry t)))
      < eps.
Proof.
  intros Hv Hcall Hitm Heps. apply is_validated_bounds in Hv.
  destruct Hv as (HK & HN & HT & HS & _).
  set (S := spot t) in *. set (K := strike t) in *.
  set (T := time_to_expiry t) in *. set (N := notional t) in *.
  set (r_d := domestic_rate t) in *. set (r_f := foreign_rate t) in *.
  assert (HT0 : 0 < T) by lra.
  pose proof (forward_log_moneyness_pos S K T r_d r_f HS HK Hitm) as Hm.
  set (m := ln (S / K) + (r_d - r_f) * T) in *.
  assert (HKd : 0 < K * exp (- r_d * T)).
  { apply Rmult_lt_0_compat; [lra | apply exp_pos]. }
  set (c := N * (K * exp (- r_d * T)) * 8 * T).
  assert (Hc : 0 < c).
  { assert (0 < N * (K * exp (- r_d * T)))
      by (apply Rmult_lt_0_compat; lra).
    unfold c. rewrite Rmult_assoc. apply Rmult_lt_0_compat; lra. }
  exists (Rmin 1 (Rmin (m / T) (eps * m ^ 2 / c))).
  assert (Hm2 : 0 < m ^ 2) by (apply pow_lt; exact Hm).
  split.
  { apply Rmin_pos; [lra |]. apply Rmin_pos.
    - apply Rdiv_lt_0_compat; lra.
    - apply Rdiv_lt_0_compat; [apply Rmult_lt_0_compat; lra | exact Hc]. }
  intros sigma [Hs0 Hs].
  assert (Hs1 : sigma < 1) by (eapply Rlt_le_trans; [exact Hs | apply Rmin_l]).
  assert (Hs2 : sigma < m / T).
  { eapply Rlt_le_trans; [exact Hs |].
    eapply Rle_trans; [apply Rmin_r | apply Rmin_l]. }
  assert (Hs3 : sigma < eps * m ^ 2 / c).
  { eapply Rlt_le_trans; [exact Hs |].
    eapply Rle_trans; [apply Rmin_r | apply Rmin_r]. }
  assert (Hss : sigma * sigma < sigma) by nra.
  assert (HsT : sigma * T < m).
  { apply Rmult_lt_compat_r with (r := T) in Hs2; [| exact HT0].
    unfold Rdiv in Hs2. rewrite Rmult_assoc, Rinv_l, Rmult_1_r in Hs2 by lra.
    exact Hs2. }
  assert (Hsc : sigma * c < eps * m ^ 2).
  { apply Rmult_lt_compat_r with (r := c) in Hs3; [| exact Hc].
    unfold Rdiv in Hs3. rewrite Rmult_assoc, Rinv_l, Rmult_1_r in Hs3 by lra.
    exact Hs3. }
  rewrite calculate_pv_per_unit. simpl. rewrite Hcall.
  fold S K T N r_d r_f.
  pose proof (Greeks.parity_per_unit K T r_d r_f S sigma) as Hpar.
  pose proof (Greeks.put_per_unit_pos S K T sigma r_d r_f HS HK HT0 Hs0)
    as Hpos.
  pose proof (put_per_unit_low_volatility S K T sigma r_d r_f HS HK HT0 Hs0
                Hitm) as Hlow.
  fold m in Hlow.
  assert (Hsm : sigma * sigma * T <= m) by nra.
  specialize (Hlow Hsm).
  set (put := spec_pv_per_unit PUT S K T sigma r_d r_f) in *.
  replace (spec_pv_per_unit CALL S K T sigma r_d r_f * N
           - N * (S * exp (- r_f * T) - K * exp (- r_d * T)))
    with (N * put) by (rewrite Hpar; ring).
  rewrite Rabs_pos_eq by (left; apply Rmult_lt_0_compat; lra).
  apply Rmult_lt_reg_r with (m ^ 2); [exact Hm2 |].
  apply Rle_lt_trans with (N * (K * exp (- r_d * T)
                                * (8 * (sigma * sigma * T)))).
  - rewrite Rmult_assoc. apply Rmult_le_compat_l; [lra | exact Hlow].
  - apply Rle_lt_trans with (sigma * c); [| exact Hsc].
    unfold c.
    replace (N * (K * exp (- r_d * T) * (8 * (sigma * sigma * T))))
      with (sigma * sigma * (N * (K * exp (- r_d * T)) * 8 * T)) by ring.
    apply Rmult_le_compat_r; [unfold c in Hc; lra | lra].
Qed.

Lemma call_pv_low_volatility_limit_witness :
  exists delta : R,
    0 < delta /\
    forall sigma : R,
      0 < sigma < delta ->
      Rabs (_calculate_pv (with_volatility TEST004 sigma)
            - notional TEST004
              * (spot TEST004
                 * exp (- foreign_rate TEST004 * time_to_expiry TEST004)
                 - strike TEST004
                   * exp (- domestic_rate TEST004 * time_to_expiry TEST004)))
      < 1.
Proof.
  apply (call_pv_low_volatility_limit TEST004 1).
  - exact TEST004_validated.
  - reflexivity.
  - simpl.
    apply Rmult_lt_compat_l; [lra |]. apply exp_increasing. lra.
  - lra.
Defined.

Lemma spec_d1_rescaled (c S K T s r_d r_f : R) :
  0 < c -> 0 < K ->
  spec_d1 (c * S) (c * K) T s r_d r_f = spec_d1 S K T s r_d r_f.
Proof.
  intros Hc HK. unfold spec_d1.
  replace (c * S / (c * K)) with (S / K) by (field; lra). reflexivity.
Qed.

(** X19: the prices have no scale of their own. Multiplying the spot and
    the strike of a trade by the same positive factor multiplies its
    present value and its vega by that factor and leaves its delta
    unchanged; multiplying the notional by a factor multiplies all three by
    it. *)
Theorem pricing_homogeneity (t : ValidatedTrade) (c : R) :
  0 < c -> 0 < strike t ->
  (_calculate_pv (rescaled t c) = c * _calculate_pv t /\
   _calculate_delta (rescaled t c) = _calculate_delta t /\
   _calculate_vega (rescaled t c) = c * _calculate_vega t) /\
  (_calculate_pv (with_notional t (c * notional t)) = c * _calculate_pv t /\
   _calculate_delta (with_notional t (c * notional t))
   = c * _calculate_delta t /\
   _calculate_vega (with_notional t (c * notional t))
   = c * _calculate_vega t).
Proof.
  intros Hc HK.
  pose proof (spec_d1_rescaled c (spot t) (strike t) (time_to_expiry t)
                (volatility t) (domestic_rate t) (foreign_rate t) Hc HK)
    as Hd1.
  split; [split; [| split] | split; [| split]].
  - rewrite !calculate_pv_per_unit. simpl.
    unfold spec_pv_per_unit, spec_d2. rewrite Hd1.
    destruct (option_type t); ring.
  - rewrite !calculate_delta_eq, !calculate_d1. simpl. rewrite Hd1.
    reflexivity.
  - rewrite !calculate_vega_eq, !calculate_d1. simpl. rewrite Hd1.
    unfold Rdiv. ring.
  - rewrite !calculate_pv_per_unit. simpl. ring.
  - rewrite !calculate_delta_eq. simpl.
    change (fst (_calculate_d1_d2 (with_notional t (c * notional t))))
      with (fst (_calculate_d1_d2 t)).
    ring.
  - rewrite !calculate_vega_eq. simpl.
    change (fst (_calculate_d1_d2 (with_notional t (c * notional t))))
      with (fst (_calculate_d1_d2 t)).
    unfold Rdiv. ring.
Qed.

Lemma pricing_homogeneity_witness :
  (_calculate_pv (rescaled TEST004 100) = 100 * _calculate_pv TEST004 /\
   _calculate_delta (rescaled TEST004 100) = _calculate_delta TEST004 /\
   _calculate_vega (rescaled TEST004 100) = 100 * _calculate_vega TEST004) /\
  (_calculate_pv (with_notional TEST004 (100 * notional TEST004))
   = 100 * _calculate_pv TEST004 /\
   _calculate_delta (with_notional TEST004 (100 * notional TEST004))
   = 100 * _calculate_delta TEST004 /\
   _calculate_vega (with_notional TEST004 (100 * notional TEST004))
   = 100 * _calculate_vega TEST004).
Proof.
  apply (pricing_homogeneity TEST004 100); simpl; lra.
Defined.

Section ValidatedOutput.

Variable float_str : R -> string.
Variable percent_str : R -> string.
Variable pydantic_str : validation_error -> string.


End ValidatedOutput.
